(** * Smart Task Prioritizer: a shallow embedding of [prioritize_tasks.py]

    The development follows the Python module function by function:
    [parse_deadline], [validate_task], [detect_circular_dependencies]
    (with its nested [has_cycle]), [normalize_tasks] and [prioritize_tasks].

    Modelling choices.
    - Exceptions are values of [exn]; a call either returns ([Ok]) or
      raises ([Raise]).
    - A Python [dict] keeps its keys in insertion order and an assignment
      to a key already present replaces the value in place: it is an
      association list updated by [dict_set].
    - A Python [set] of ids is a [gset string].
    - [int] is [Z]; [estimated_hours] is a rational ([Q]), so no NaN.
    - [datetime.fromisoformat] belongs to Python's library, not to the
      module: it is a parameter of the section.
    - The interpreter's recursion limit is not modelled: the call stack of
      [has_cycle] is unbounded. *)

From Stdlib Require Import ZArith QArith Ascii String List Permutation Lia.
From stdpp Require Import base decidable option list sets gmap strings pretty relations.

Set Warnings "-clear-no-such-hyp".

Local Open Scope Z_scope.
Local Open Scope string_scope.
Local Open Scope list_scope.
Local Open Scope stdpp_scope.

(** ** Constants *)

Definition PRIORITY_MIN : Z := 1.
Definition PRIORITY_MAX : Z := 5.

(** ** Data model *)

(** The fields of a [datetime.datetime] value; [tzinfo] is the offset
    from UTC in seconds, when the value is aware. *)
Record datetime : Type := mk_datetime {
  year : Z;
  month : Z;
  day : Z;
  hour : Z;
  minute : Z;
  second : Z;
  microsecond : Z;
  tzinfo : option Z
}.

(** [Union[datetime, str]] *)
Inductive deadline_value : Type :=
| DeadlineDatetime (d : datetime)
| DeadlineStr (s : string).

(** [class TaskDict(TypedDict)] *)
Record TaskDict : Type := mk_TaskDict {
  td_id : string;
  td_name : string;
  td_deadline : deadline_value;
  td_priority : Z;
  td_dependencies : list string;
  td_estimated_hours : Q
}.

(** [@dataclass class Task] *)
Record Task : Type := mk_Task {
  id : string;
  name : string;
  deadline : datetime;
  priority : Z;
  dependencies : list string;
  estimated_hours : Q
}.

(** The exceptions the module raises, each with its message. *)
Inductive exn : Type :=
| CircularDependencyError (msg : string)
| InvalidDependencyError (msg : string)
| InvalidPriorityError (msg : string)
| ValueError (msg : string).

Inductive result (A : Type) : Type :=
| Ok (a : A)
| Raise (e : exn).
Arguments Ok {A} a.
Arguments Raise {A} e.

Definition bind {A B : Type} (r : result A) (k : A -> result B) : result B :=
  match r with
  | Ok a => k a
  | Raise e => Raise e
  end.

Notation "r >>! k" := (bind r (fun _ => k))
  (at level 60, right associativity, only parsing).

(** ** Strings *)

(** [sub in s] on Python strings. *)
Fixpoint str_in (sub s : string) : bool :=
  String.prefix sub s ||
  match s with
  | EmptyString => false
  | String _ s' => str_in sub s'
  end.

(** [s.replace("Z", "+00:00")]: every occurrence is replaced. *)
Fixpoint replace_Z (s : string) : string :=
  match s with
  | EmptyString => EmptyString
  | String c s' =>
      if Ascii.eqb c "Z"%char then "+00:00" +:+ replace_Z s'
      else String c (replace_Z s')
  end.

(** The double quote character, as a string. *)
Definition dquote : string := String (Ascii.ascii_of_nat 34) EmptyString.

(** [str(n)] for an [int]. *)
Definition str_of_int (n : Z) : string := pretty n.

(** ** Python dictionaries *)

Section Dict.
Context {V : Type}.

Definition dict : Type := list (string * V).

Fixpoint dict_get (d : dict) (k : string) : option V :=
  match d with
  | [] => None
  | (k', v) :: d' => if String.eqb k' k then Some v else dict_get d' k
  end.

(** [d[k] = v]: a known key keeps its position, a new key goes last. *)
Fixpoint dict_set (d : dict) (k : string) (v : V) : dict :=
  match d with
  | [] => [(k, v)]
  | (k', v') :: d' =>
      if String.eqb k' k then (k', v) :: d' else (k', v') :: dict_set d' k v
  end.

Definition dict_keys (d : dict) : list string := map fst d.
Definition dict_values (d : dict) : list V := map snd d.
End Dict.
Arguments dict V : clear implicits.

(** ** The module's functions *)

Section Prioritizer.

(** [datetime.fromisoformat]; [None] stands for its [ValueError]. *)
Variable fromisoformat : string -> option datetime.

Definition parse_deadline (deadline : deadline_value) : result datetime :=
  match deadline with
  | DeadlineDatetime d => Ok d
  | DeadlineStr s =>
      let parsed :=
        if str_in "T" s then fromisoformat (replace_Z s)
        else fromisoformat s in
      match parsed with
      | Some d => Ok d
      | None => Raise (ValueError ("Invalid date format: " +:+ s))
      end
  end.

Definition invalid_priority_msg (task : Task) : string :=
  "Task " +:+ dquote +:+ id task +:+ dquote +:+ " has invalid priority "
    +:+ str_of_int (priority task) +:+ ". "
    +:+ "Priority must be between " +:+ str_of_int PRIORITY_MIN
    +:+ " and " +:+ str_of_int PRIORITY_MAX +:+ ".".

Definition invalid_dependency_msg (task : Task) (dep_id : string) : string :=
  "Task " +:+ dquote +:+ id task +:+ dquote
    +:+ " has dependency on non-existent task " +:+ dquote
    +:+ dep_id +:+ dquote +:+ ".".

Definition negative_hours_msg (task : Task) : string :=
  "Task " +:+ dquote +:+ id task +:+ dquote
    +:+ " has negative estimated hours.".

(** The loop [for dep_id in task.dependencies]. *)
Fixpoint check_dependencies (task : Task) (deps : list string)
    (all_task_ids : gset string) : result unit :=
  match deps with
  | [] => Ok tt
  | dep_id :: deps' =>
      if decide (dep_id ∈ all_task_ids)
      then check_dependencies task deps' all_task_ids
      else Raise (InvalidDependencyError (invalid_dependency_msg task dep_id))
  end.

Definition validate_task (task : Task) (all_task_ids : gset string)
    : result unit :=
  if Z.ltb (priority task) PRIORITY_MIN || Z.gtb (priority task) PRIORITY_MAX
  then Raise (InvalidPriorityError (invalid_priority_msg task))
  else
    check_dependencies task (dependencies task) all_task_ids >>!
    if negb (Qle_bool 0 (estimated_hours task))
    then Raise (ValueError (negative_hours_msg task))
    else Ok tt.

(** *** Cycle detection *)

(** The two sets [has_cycle] closes over. *)
Record dfs_state : Type := mk_dfs_state {
  visited : gset string;
  recursion_stack : gset string
}.

(** [tasks.get(task_id)] followed by [task.dependencies]; an id that is
    not a key has nothing to iterate over. *)
Definition task_deps (tasks : dict Task) (task_id : string) : list string :=
  match dict_get tasks task_id with
  | Some task => dependencies task
  | None => []
  end.

(** The loop [for dep_id in task.dependencies: if has_cycle(dep_id): return
    True], over the recursive call [rec]. *)
Fixpoint has_cycle_deps (rec : string -> dfs_state -> option (bool * dfs_state))
    (deps : list string) (st : dfs_state) : option (bool * dfs_state) :=
  match deps with
  | [] => Some (false, st)
  | dep_id :: deps' =>
      match rec dep_id st with
      | None => None
      | Some (true, st') => Some (true, st')
      | Some (false, st') => has_cycle_deps rec deps' st'
      end
  end.

(** The nested function [has_cycle]. Its recursion is not structural:
    [fuel] bounds the depth of the calls and [None] means it ran out
    ([detect_total] shows that [dfs_fuel] is always enough). *)
Fixpoint has_cycle (fuel : nat) (tasks : dict Task) (task_id : string)
    (st : dfs_state) : option (bool * dfs_state) :=
  match fuel with
  | O => None
  | S fuel' =>
      if decide (task_id ∈ recursion_stack st) then Some (true, st)
      else if decide (task_id ∈ visited st) then Some (false, st)
      else
        let st1 := mk_dfs_state ({[task_id]} ∪ visited st)
                                ({[task_id]} ∪ recursion_stack st) in
        match has_cycle_deps (has_cycle fuel' tasks)
                (task_deps tasks task_id) st1 with
        | None => None
        | Some (true, st2) => Some (true, st2)
        | Some (false, st2) =>
            Some (false,
                  mk_dfs_state (visited st2) (recursion_stack st2 ∖ {[task_id]}))
        end
  end.

Definition circular_dependency_msg (task_id : string) : string :=
  "Circular dependency detected involving task " +:+ dquote
    +:+ task_id +:+ dquote +:+ ".".

(** The loop [for task_id in tasks.keys()]. *)
Fixpoint detect_loop (fuel : nat) (tasks : dict Task) (keys : list string)
    (st : dfs_state) : option (result unit) :=
  match keys with
  | [] => Some (Ok tt)
  | task_id :: keys' =>
      if decide (task_id ∈ visited st) then detect_loop fuel tasks keys' st
      else
        match has_cycle fuel tasks task_id st with
        | None => None
        | Some (true, _) =>
            Some (Raise (CircularDependencyError (circular_dependency_msg task_id)))
        | Some (false, st') => detect_loop fuel tasks keys' st'
        end
  end.

(** Every id the traversal can meet: the keys and the ids the values
    list as dependencies. *)
Definition dict_nodes (tasks : dict Task) : list string :=
  dict_keys tasks ++ concat (map dependencies (dict_values tasks)).

Definition dfs_fuel (tasks : dict Task) : nat := S (length (dict_nodes tasks)).

Definition detect_circular_dependencies (tasks : dict Task)
    : option (result unit) :=
  detect_loop (dfs_fuel tasks) tasks (dict_keys tasks) (mk_dfs_state ∅ ∅).

(** *** Normalization and the entry point *)

Definition normalize_task (task_dict : TaskDict) : result Task :=
  match parse_deadline (td_deadline task_dict) with
  | Raise e => Raise e
  | Ok d =>
      Ok (mk_Task (td_id task_dict) (td_name task_dict) d
            (td_priority task_dict) (td_dependencies task_dict)
            (td_estimated_hours task_dict))
  end.

(** The loop of [normalize_tasks], with the dictionary built so far. *)
Fixpoint normalize_loop (tasks : list TaskDict) (normalized : dict Task)
    : result (dict Task) :=
  match tasks with
  | [] => Ok normalized
  | task_dict :: tasks' =>
      match normalize_task task_dict with
      | Raise e => Raise e
      | Ok task =>
          normalize_loop tasks' (dict_set normalized (td_id task_dict) task)
      end
  end.

Definition normalize_tasks (tasks : list TaskDict) : result (dict Task) :=
  normalize_loop tasks [].

(** The loop [for task in normalized_tasks.values(): validate_task(...)]. *)
Fixpoint validate_all (tasks : list Task) (all_task_ids : gset string)
    : result unit :=
  match tasks with
  | [] => Ok tt
  | task :: tasks' =>
      validate_task task all_task_ids >>! validate_all tasks' all_task_ids
  end.

(** [prioritize_tasks]: after the checks the body ends with the
    placeholder [return tasks]. [None] only when [has_cycle] ran out of
    fuel, which [prioritize_tasks_total] excludes. *)
Definition prioritize_tasks (tasks : list TaskDict)
    : option (result (list TaskDict)) :=
  match tasks with
  | [] => Some (Ok [])
  | _ :: _ =>
      let all_task_ids : gset string := list_to_set (map td_id tasks) in
      match normalize_tasks tasks with
      | Raise e => Some (Raise e)
      | Ok normalized_tasks =>
          match validate_all (dict_values normalized_tasks) all_task_ids with
          | Raise e => Some (Raise e)
          | Ok _ =>
              match detect_circular_dependencies normalized_tasks with
              | None => None
              | Some (Raise e) => Some (Raise e)
              | Some (Ok _) => Some (Ok tasks)
              end
          end
      end
  end.

End Prioritizer.

(** ** A reading of [datetime.fromisoformat] for concrete runs

    The calendar-date form [YYYY-MM-DD] only, which Python parses to
    midnight of that day with no time zone; any other text is refused here.
    It instantiates the section's parameter in the examples below, all of
    whose deadline texts have that form. *)

Definition digit_of (c : ascii) : option Z :=
  let n := Z.of_nat (nat_of_ascii c) in
  if Z.leb 48 n && Z.leb n 57 then Some (n - 48) else None.

Fixpoint digits_of (s : string) (acc : Z) : option Z :=
  match s with
  | EmptyString => Some acc
  | String c s' =>
      match digit_of c with
      | Some d => digits_of s' (10 * acc + d)
      | None => None
      end
  end.

Definition is_leap (y : Z) : bool :=
  Z.eqb (y mod 4) 0 && (negb (Z.eqb (y mod 100) 0) || Z.eqb (y mod 400) 0).

Definition days_in_month (y m : Z) : Z :=
  if Z.eqb m 2 then (if is_leap y then 29 else 28)
  else if Z.eqb m 4 || Z.eqb m 6 || Z.eqb m 9 || Z.eqb m 11 then 30
  else 31.

Definition fromisoformat_date (s : string) : option datetime :=
  if Nat.eqb (String.length s) 10
     && String.eqb (substring 4 1 s) "-" && String.eqb (substring 7 1 s) "-"
  then
    match digits_of (substring 0 4 s) 0, digits_of (substring 5 2 s) 0,
          digits_of (substring 8 2 s) 0 with
    | Some y, Some m, Some d =>
        if Z.leb 1 y && Z.leb 1 m && Z.leb m 12
           && Z.leb 1 d && Z.leb d (days_in_month y m)
        then Some (mk_datetime y m d 0 0 0 0 None)
        else None
    | _, _, _ => None
    end
  else None.

(** ** The dependency graph *)

(** An edge goes from a task to each of its dependencies. *)
Definition edge (tasks : dict Task) (x y : string) : Prop :=
  y ∈ task_deps tasks x.

(** [x] lies on a cycle: a path of at least one edge leads from [x] back
    to [x]. *)
Definition on_cycle (tasks : dict Task) (x : string) : Prop :=
  tc (edge tasks) x x.

Definition has_cycle_graph (tasks : dict Task) : Prop :=
  exists x, on_cycle tasks x.

Definition acyclic (tasks : dict Task) : Prop :=
  forall x, ~ on_cycle tasks x.

(** Every dependency id of every task of the mapping is a key. *)
Definition deps_resolve (tasks : dict Task) : Prop :=
  forall k task dep_id,
    dict_get tasks k = Some task -> dep_id ∈ dependencies task ->
    dep_id ∈ dict_keys tasks.

(** The nodes fully processed: visited and no longer on the path. *)
Definition finished (st : dfs_state) : gset string :=
  visited st ∖ recursion_stack st.

(** What the traversal maintains about the finished nodes: their
    dependencies are finished too, and none of them lies on a cycle. *)
Definition dfs_inv (tasks : dict Task) (st : dfs_state) : Prop :=
  (forall v w, v ∈ finished st -> edge tasks v w -> w ∈ finished st) /\
  (forall v, v ∈ finished st -> ~ on_cycle tasks v).

(** What a call that answers [False] does to the two sets. *)
Definition false_frame (task_id : string) (st st' : dfs_state) : Prop :=
  recursion_stack st' = recursion_stack st /\
  visited st ⊆ visited st' /\
  task_id ∈ visited st' /\
  task_id ∉ recursion_stack st.

(** A path of dependency edges leads from [x] to a node on a cycle. *)
Definition leads_to_cycle (tasks : dict Task) (x : string) : Prop :=
  exists y, rtc (edge tasks) x y /\ on_cycle tasks y.

(** The ids of [dict_nodes], as a set. *)
Definition node_set (tasks : dict Task) : gset string :=
  list_to_set (dict_nodes tasks).

(** ** Valid batches *)

Definition priority_in_range (task : Task) : Prop :=
  PRIORITY_MIN <= priority task <= PRIORITY_MAX.

(** The set [all_task_ids] of [prioritize_tasks]. *)
Definition batch_ids (tasks : list TaskDict) : gset string :=
  list_to_set (map td_id tasks).

(** The entries [normalize_tasks] builds from the normalized tasks. *)
Definition task_entries (ts : list Task) : dict Task :=
  map (fun t => (id t, t)) ts.

(** A record that passes parsing and the three checks of [validate_task]. *)
Definition valid_task_dict (fromisoformat : string -> option datetime)
    (ids : gset string) (td : TaskDict) : Prop :=
  (exists d, parse_deadline fromisoformat (td_deadline td) = Ok d) /\
  PRIORITY_MIN <= td_priority td <= PRIORITY_MAX /\
  (forall dep_id, dep_id ∈ td_dependencies td -> dep_id ∈ ids) /\
  (0 <= td_estimated_hours td)%Q.

(** A valid batch: unique ids, and every record valid. *)
Definition valid_batch (fromisoformat : string -> option datetime)
    (tasks : list TaskDict) : Prop :=
  NoDup (map td_id tasks) /\
  Forall (valid_task_dict fromisoformat (batch_ids tasks)) tasks.

(** The dependency graph of a batch, and its acyclicity. *)
Definition batch_edge (tasks : list TaskDict) (x y : string) : Prop :=
  exists td, td ∈ tasks /\ td_id td = x /\ y ∈ td_dependencies td.

Definition acyclic_batch (tasks : list TaskDict) : Prop :=
  forall x, ~ tc (batch_edge tasks) x x.

(** The index of the record with id [k] in a sequence of records. *)
Definition index_of (k : string) (out : list TaskDict) : option nat :=
  fst <$> list_find (fun td => td_id td = k) out.

(** Every dependency of every record of [out] that is itself in [out]
    comes at a strictly smaller index. *)
Definition respects_dependencies (out : list TaskDict) : Prop :=
  forall i T D j,
    out !! i = Some T -> D ∈ td_dependencies T ->
    index_of D out = Some j -> (j < i)%nat.

(** The ids of the returned sequence, when the call returns one. *)
Definition returned_ids (r : option (result (list TaskDict)))
    : option (list string) :=
  match r with
  | Some (Ok out) => Some (map td_id out)
  | _ => None
  end.

(** The deadline is a parsed time value. *)
Definition deadline_normalized (td : TaskDict) : Prop :=
  exists d, td_deadline td = DeadlineDatetime d.

(** ** Duplicate ids *)

(** The ids of [ids] that are not in [seen], each once, in the order of
    their first occurrence. *)
Fixpoint fresh_ids (seen ids : list string) : list string :=
  match ids with
  | [] => []
  | k :: ids' =>
      if decide (k ∈ seen) then fresh_ids seen ids'
      else k :: fresh_ids (seen ++ [k]) ids'
  end.

Definition first_occurrences (ids : list string) : list string :=
  fresh_ids [] ids.

(** A path of dependency edges of the batch leads from [x] to an id on a
    cycle. *)
Definition batch_leads_to_cycle (tasks : list TaskDict) (x : string) : Prop :=
  exists y, rtc (batch_edge tasks) x y /\ tc (batch_edge tasks) y y.

(** ** Batches from the test suite and the specification *)

(** [test_simple_dependencies]: the dependent task is given first. *)
Definition simple_task1 : TaskDict :=
  mk_TaskDict "1" "Setup project" (DeadlineStr "2024-01-20") 3 [] 2.
Definition simple_task2 : TaskDict :=
  mk_TaskDict "2" "Implement feature" (DeadlineStr "2024-01-15") 5 ["1"] 8.
Definition simple_batch : list TaskDict := [simple_task2; simple_task1].

(** [test_complex_real_world_scenario], the worked example. *)
Definition worked_example : list TaskDict :=
  [ mk_TaskDict "1" "Setup project" (DeadlineStr "2024-01-25") 5 [] 2;
    mk_TaskDict "2" "Write tests" (DeadlineStr "2024-01-20") 4 ["1"] 4;
    mk_TaskDict "3" "Implement feature" (DeadlineStr "2024-01-22") 5 ["1"] 8;
    mk_TaskDict "4" "Code review" (DeadlineStr "2024-01-18") 3 ["2"; "3"] 2;
    mk_TaskDict "5" "Documentation" (DeadlineStr "2024-01-30") 2 ["4"] 3 ].

(** [test_single_task]: one record, its deadline a string. *)
Definition single_task : TaskDict :=
  mk_TaskDict "1" "Single task" (DeadlineStr "2024-01-15") 3 [] 2.

(** A mapping in which ["A"] depends on ["B"] and ["B"] on itself. *)
Definition midnight (y m d : Z) : datetime := mk_datetime y m d 0 0 0 0 None.
Definition tail_cycle : dict Task :=
  [ ("A", mk_Task "A" "Lead-in" (midnight 2024 1 15) 3 ["B"] 2);
    ("B", mk_Task "B" "Loop" (midnight 2024 1 15) 3 ["B"] 2) ].

(** Two invalid records: the first has both a priority out of range and
    an unknown dependency, the second a priority out of range. *)
Definition two_invalid : list TaskDict :=
  [ mk_TaskDict "1" "First" (DeadlineStr "2024-01-15") 0 ["999"] 2;
    mk_TaskDict "2" "Second" (DeadlineStr "2024-01-20") 6 [] 2 ].

(** Two records with a priority out of range; the deadline of the second
    is not a date. *)
Definition bad_deadline_batch : list TaskDict :=
  [ mk_TaskDict "1" "First" (DeadlineStr "2024-01-15") 0 [] 2;
    mk_TaskDict "2" "Second" (DeadlineStr "not-a-date") 6 [] 2 ].

(** Two records share the id ["1"]; the first has a priority out of range. *)
Definition shadowed_batch : list TaskDict :=
  [ mk_TaskDict "1" "Draft" (DeadlineStr "2024-01-15") 9 ["999"] 2;
    mk_TaskDict "2" "Other" (DeadlineStr "2024-01-20") 3 [] 2;
    mk_TaskDict "1" "Final" (DeadlineStr "2024-01-25") 4 ["2"] 1 ].

(** A valid batch with a cycle between ["2"] and ["3"], reached from ["1"]. *)
Definition cyclic_batch : list TaskDict :=
  [ mk_TaskDict "1" "Entry" (DeadlineStr "2024-01-15") 3 ["2"] 2;
    mk_TaskDict "2" "Ping" (DeadlineStr "2024-01-20") 3 ["3"] 2;
    mk_TaskDict "3" "Pong" (DeadlineStr "2024-01-25") 3 ["2"] 2 ].

(** A mapping with a dependency on an id that is not a key. *)
Definition dangling : dict Task :=
  [ ("1", mk_Task "1" "Task 1" (midnight 2024 1 15) 3 ["999"] 2) ].

(** ** Facts about dictionaries *)

Lemma dict_get_Some_elem {V : Type} (d : dict V) k v :
  dict_get d k = Some v -> (k, v) ∈ d.
Proof.
  induction d as [|[k' v'] d IH]; simpl; [discriminate|].
  destruct (String.eqb k' k) eqn:E.
  - apply String.eqb_eq in E. intros [= ->]. subst. left.
  - intros H. right. auto.
Qed.

Lemma dict_get_Some_key {V : Type} (d : dict V) k v :
  dict_get d k = Some v -> k ∈ dict_keys d.
Proof.
  intros H. apply dict_get_Some_elem in H.
  unfold dict_keys. apply list_elem_of_fmap. exists (k, v). auto.
Qed.

Lemma dict_get_key_Some {V : Type} (d : dict V) k :
  k ∈ dict_keys d -> is_Some (dict_get d k).
Proof.
  induction d as [|[k' v'] d IH]; simpl.
  - intros H. inversion H.
  - destruct (String.eqb k' k) eqn:E; [eauto|].
    intros H. apply elem_of_cons in H as [->|H]; [|auto].
    rewrite String.eqb_refl in E. discriminate.
Qed.

Lemma size_unvisited_lt (U W : gset string) (x : string) :
  x ∈ U -> x ∉ W -> (size (U ∖ ({[x]} ∪ W)) < size (U ∖ W))%nat.
Proof.
  intros HU HW. apply subset_size, strict_spec_alt. split; [set_solver|].
  intros Heq. assert (Hx : x ∈ U ∖ W) by set_solver.
  rewrite <- Heq in Hx. set_solver.
Qed.

(** ** The traversal *)

Section Traversal.
Variable tasks : dict Task.

Lemma has_cycle_deps_false_frame rec deps :
  (forall d st st', rec d st = Some (false, st') -> false_frame d st st') ->
  forall st st',
    has_cycle_deps rec deps st = Some (false, st') ->
    recursion_stack st' = recursion_stack st /\
    visited st ⊆ visited st' /\
    (forall d, d ∈ deps -> d ∈ visited st' /\ d ∉ recursion_stack st).
Proof.
  intros Hrec. induction deps as [|d deps IH]; simpl; intros st st' H.
  - injection H as <-. repeat split; try set_solver.
  - destruct (rec d st) as [[[] st1]|] eqn:E; try discriminate.
    apply Hrec in E as (E1 & E2 & E3 & E4).
    apply IH in H as (H1 & H2 & H3).
    split; [congruence|]. split; [set_solver|].
    intros d' Hd'. apply elem_of_cons in Hd' as [->|Hd'].
    + split; [set_solver|done].
    + destruct (H3 d' Hd') as [? ?]. split; [done|]. by rewrite <- E1.
Qed.

Lemma has_cycle_false_frame fuel :
  forall task_id st st',
    has_cycle fuel tasks task_id st = Some (false, st') ->
    false_frame task_id st st'.
Proof.
  induction fuel as [|fuel IH]; simpl; intros task_id st st' H; [discriminate|].
  destruct (decide (task_id ∈ recursion_stack st)) as [|Hs]; [discriminate|].
  destruct (decide (task_id ∈ visited st)) as [Hv|Hv].
  - injection H as <-. unfold false_frame. set_solver.
  - destruct (has_cycle_deps _ _ _) as [[[] st2]|] eqn:E; try discriminate.
    injection H as <-.
    apply (has_cycle_deps_false_frame _ _ IH) in E as (E1 & E2 & _).
    simpl in *. unfold false_frame; simpl. rewrite E1. set_solver.
Qed.

(** *** Answering [False]: the finished nodes carry no cycle *)

Lemma finished_closed_rtc st v w :
  dfs_inv tasks st -> v ∈ finished st -> rtc (edge tasks) v w ->
  w ∈ finished st.
Proof.
  intros [Hcl _] Hv Hp. induction Hp as [|x y z Hxy _ IH]; [done|].
  apply IH. eapply Hcl; eauto.
Qed.

Lemma dfs_inv_ext st st' :
  finished st' = finished st -> dfs_inv tasks st -> dfs_inv tasks st'.
Proof. unfold dfs_inv. intros ->. done. Qed.

Lemma has_cycle_deps_false_inv rec deps :
  (forall d st st', rec d st = Some (false, st') ->
     false_frame d st st' /\ (dfs_inv tasks st -> dfs_inv tasks st')) ->
  forall st st',
    has_cycle_deps rec deps st = Some (false, st') ->
    dfs_inv tasks st -> dfs_inv tasks st'.
Proof.
  intros Hrec. induction deps as [|d deps IH]; simpl; intros st st' H Hinv.
  - by injection H as <-.
  - destruct (rec d st) as [[[] st1]|] eqn:E; try discriminate.
    apply Hrec in E as [_ E]. eauto.
Qed.

Lemma has_cycle_false_inv fuel :
  forall task_id st st',
    has_cycle fuel tasks task_id st = Some (false, st') ->
    dfs_inv tasks st -> dfs_inv tasks st'.
Proof.
  induction fuel as [|fuel IH]; simpl; intros task_id st st' H Hinv; [discriminate|].
  destruct (decide (task_id ∈ recursion_stack st)) as [|Hs]; [discriminate|].
  destruct (decide (task_id ∈ visited st)) as [Hv|Hv].
  { by injection H as <-. }
  destruct (has_cycle_deps _ _ _) as [[[] st2]|] eqn:E; try discriminate.
  injection H as <-.
  set (st1 := mk_dfs_state _ _) in E.
  assert (Hinv1 : dfs_inv tasks st1).
  { apply (dfs_inv_ext st); [|done]. unfold finished; simpl. set_solver. }
  pose proof (has_cycle_deps_false_frame _ _ (has_cycle_false_frame fuel) _ _ E)
    as (E1 & E2 & E3).
  assert (Hinv2 : dfs_inv tasks st2).
  { revert E Hinv1. apply has_cycle_deps_false_inv.
    intros d s s' Hd. split; [by eapply has_cycle_false_frame|by eapply IH]. }
  simpl in E1, E2, E3.
  assert (Hdeps : forall d, edge tasks task_id d -> d ∈ finished st2).
  { intros d Hd. destruct (E3 d Hd) as [? ?].
    unfold finished. rewrite E1. set_solver. }
  assert (Hid : task_id ∉ finished st2).
  { unfold finished. rewrite E1. set_solver. }
  assert (Hfin : forall v, v ∈ finished (mk_dfs_state (visited st2)
                     (recursion_stack st2 ∖ {[task_id]})) ->
                   v = task_id \/ v ∈ finished st2).
  { intros v. unfold finished; simpl.
    destruct (decide (v = task_id)); [by left|]. set_solver. }
  assert (Hsub : finished st2 ⊆ finished (mk_dfs_state (visited st2)
                     (recursion_stack st2 ∖ {[task_id]}))).
  { unfold finished; simpl. set_solver. }
  split.
  - intros v w Hvf Hvw. apply Hsub.
    destruct (Hfin v Hvf) as [->|Hv2]; [by apply Hdeps|].
    destruct Hinv2 as [Hcl _]. eapply Hcl; eauto.
  - intros v Hvf Hcyc. destruct (Hfin v Hvf) as [->|Hv2].
    + unfold on_cycle in Hcyc. inversion Hcyc as [x y Hxy|x y z Hxy Hyz]; subst.
      * apply Hid. by apply Hdeps.
      * apply Hid. apply (finished_closed_rtc st2 y); [done|by apply Hdeps|].
        by apply tc_rtc.
    + destruct Hinv2 as [_ Hac]. by apply (Hac v).
Qed.

(** *** Answering [True]: a cycle is reachable *)

Lemma has_cycle_deps_true rec deps task_id :
  (forall d st st', rec d st = Some (false, st') -> false_frame d st st') ->
  (forall d st st', rec d st = Some (true, st') ->
     (forall s, s ∈ recursion_stack st -> tc (edge tasks) s d) ->
     leads_to_cycle tasks d) ->
  (forall d, d ∈ deps -> edge tasks task_id d) ->
  forall st st',
    has_cycle_deps rec deps st = Some (true, st') ->
    (forall s, s ∈ recursion_stack st -> rtc (edge tasks) s task_id) ->
    leads_to_cycle tasks task_id.
Proof.
  intros Hf Ht. induction deps as [|d deps IH]; simpl; intros Hedge st st' H Hst;
    [discriminate|].
  assert (Hd : edge tasks task_id d) by (apply Hedge; left).
  destruct (rec d st) as [[[] st1]|] eqn:E; try discriminate.
  - apply Ht in E as (y & Hy & Hcyc).
    + exists y. split; [by eapply rtc_l|done].
    + intros s Hs. eapply tc_rtc_l; [by apply Hst|by apply tc_once].
  - apply Hf in E as (E1 & _). eapply IH; eauto.
    + intros d' Hd'. apply Hedge. by right.
    + intros s Hs. apply Hst. by rewrite <- E1.
Qed.

Lemma has_cycle_true fuel :
  forall task_id st st',
    has_cycle fuel tasks task_id st = Some (true, st') ->
    (forall s, s ∈ recursion_stack st -> tc (edge tasks) s task_id) ->
    leads_to_cycle tasks task_id.
Proof.
  induction fuel as [|fuel IH]; simpl; intros task_id st st' H Hst; [discriminate|].
  destruct (decide (task_id ∈ recursion_stack st)) as [Hs|Hs].
  { exists task_id. split; [done|by apply Hst]. }
  destruct (decide (task_id ∈ visited st)) as [Hv|Hv]; [discriminate|].
  destruct (has_cycle_deps _ _ _) as [[[] st2]|] eqn:E; try discriminate.
  eapply (has_cycle_deps_true _ _ task_id (has_cycle_false_frame fuel) IH);
    [done|exact E|].
  simpl. intros s Hs'. apply elem_of_union in Hs' as [Hs'|Hs'].
    + apply elem_of_singleton in Hs' as ->. done.
    + apply tc_rtc. by apply Hst.
Qed.

(** *** Enough fuel *)

Lemma task_deps_node_set task_id d :
  d ∈ task_deps tasks task_id -> d ∈ node_set tasks.
Proof.
  unfold task_deps, node_set, dict_nodes.
  destruct (dict_get tasks task_id) as [task|] eqn:E; [|by intros H; inversion H].
  intros Hd. apply elem_of_list_to_set, elem_of_app. right.
  apply dict_get_Some_elem in E.
  apply list_elem_of_In, in_concat. exists (dependencies task). split.
  - apply in_map, list_elem_of_In. unfold dict_values.
    apply list_elem_of_fmap. by exists (task_id, task).
  - by apply list_elem_of_In.
Qed.

Lemma has_cycle_deps_total rec deps n :
  (forall d st st', rec d st = Some (false, st') -> false_frame d st st') ->
  (forall d st, d ∈ node_set tasks -> (size (node_set tasks ∖ visited st) < n)%nat ->
     is_Some (rec d st)) ->
  forall st,
    (forall d, d ∈ deps -> d ∈ node_set tasks) ->
    (size (node_set tasks ∖ visited st) < n)%nat ->
    is_Some (has_cycle_deps rec deps st).
Proof.
  intros Hf Hrec. induction deps as [|d deps IH]; simpl; intros st Hin Hn; [eauto|].
  destruct (Hrec d st) as [[[] st1] E]; [apply Hin; left|done| |]; rewrite E; [eauto|].
  apply Hf in E as (_ & E2 & _).
  apply IH; [intros; apply Hin; by right|].
  eapply Nat.le_lt_trans; [|exact Hn]. apply subseteq_size. set_solver.
Qed.

Lemma has_cycle_total_fuel fuel :
  forall task_id st,
    task_id ∈ node_set tasks ->
    (size (node_set tasks ∖ visited st) < fuel)%nat ->
    is_Some (has_cycle fuel tasks task_id st).
Proof.
  induction fuel as [|fuel IH]; simpl; intros task_id st Hin Hn; [lia|].
  destruct (decide (task_id ∈ recursion_stack st)); [eauto|].
  destruct (decide (task_id ∈ visited st)) as [Hv|Hv]; [eauto|].
  destruct (has_cycle_deps_total (has_cycle fuel tasks) (task_deps tasks task_id) fuel
              (has_cycle_false_frame fuel) IH
              (mk_dfs_state ({[task_id]} ∪ visited st)
                            ({[task_id]} ∪ recursion_stack st)))
    as [[[] st2] E].
  - intros d. apply task_deps_node_set.
  - simpl.
    pose proof (size_unvisited_lt (node_set tasks) (visited st) task_id Hin Hv).
    lia.
  - rewrite E. eauto.
  - rewrite E. eauto.
Qed.

(** *** The loop over the keys *)

Lemma finished_no_cycle st v :
  dfs_inv tasks st -> v ∈ finished st -> ~ leads_to_cycle tasks v.
Proof.
  intros Hinv Hv (y & Hy & Hcyc).
  destruct Hinv as [Hcl Hac]. apply (Hac y); [|done].
  by apply (finished_closed_rtc st v); [split| |].
Qed.

Lemma detect_loop_total fuel keys :
  forall st,
    (forall k, k ∈ keys -> k ∈ node_set tasks) ->
    (size (node_set tasks ∖ visited st) < fuel)%nat ->
    is_Some (detect_loop fuel tasks keys st).
Proof.
  induction keys as [|k keys IH]; simpl; intros st Hin Hn; [eauto|].
  assert (Hkeys : forall k', k' ∈ keys -> k' ∈ node_set tasks)
    by (intros; apply Hin; by right).
  destruct (decide (k ∈ visited st)); [by apply IH|].
  destruct (has_cycle_total_fuel fuel k st) as [[[] st1] E];
    [apply Hin; left|done| |]; rewrite E; [eauto|].
  apply has_cycle_false_frame in E as (_ & E2 & _).
  apply IH; [done|].
  eapply Nat.le_lt_trans; [|exact Hn]. apply subseteq_size. set_solver.
Qed.

(** The loop raises at the first key from which a cycle can be reached,
    and names that key. *)
Lemma detect_loop_raise fuel keys :
  forall st e,
    detect_loop fuel tasks keys st = Some (Raise e) ->
    dfs_inv tasks st -> recursion_stack st = ∅ ->
    exists pre x post,
      keys = pre ++ x :: post /\
      e = CircularDependencyError (circular_dependency_msg x) /\
      leads_to_cycle tasks x /\
      (forall k, k ∈ pre -> ~ leads_to_cycle tasks k).
Proof.
  induction keys as [|k keys IH]; simpl; intros st e H Hinv Hst; [discriminate|].
  destruct (decide (k ∈ visited st)) as [Hv|Hv].
  - destruct (IH _ _ H Hinv Hst) as (pre & x & post & -> & He & Hx & Hpre).
    exists (k :: pre), x, post. repeat split; try done.
    intros k' Hk'. apply elem_of_cons in Hk' as [->|Hk']; [|by apply Hpre].
    apply (finished_no_cycle st); [done|]. unfold finished. set_solver.
  - destruct (has_cycle fuel tasks k st) as [[[] st1]|] eqn:E; try discriminate.
    + injection H as <-. exists [], k, keys. repeat split.
      * eapply has_cycle_true; [exact E|]. rewrite Hst. set_solver.
      * intros k' Hk'. inversion Hk'.
    + pose proof (has_cycle_false_frame _ _ _ _ E) as (E1 & E2 & E3 & E4).
      pose proof (has_cycle_false_inv _ _ _ _ E Hinv) as Hinv1.
      assert (Hst1 : recursion_stack st1 = ∅) by congruence.
      destruct (IH _ _ H Hinv1 Hst1) as (pre & x & post & -> & He & Hx & Hpre).
      exists (k :: pre), x, post. repeat split; try done.
      intros k' Hk'. apply elem_of_cons in Hk' as [->|Hk']; [|by apply Hpre].
      apply (finished_no_cycle st1); [done|]. unfold finished. set_solver.
Qed.

Lemma detect_loop_ok fuel keys :
  forall st,
    detect_loop fuel tasks keys st = Some (Ok tt) ->
    dfs_inv tasks st -> recursion_stack st = ∅ ->
    forall k, k ∈ keys -> ~ leads_to_cycle tasks k.
Proof.
  induction keys as [|k keys IH]; simpl; intros st H Hinv Hst k' Hk';
    [inversion Hk'|].
  destruct (decide (k ∈ visited st)) as [Hv|Hv].
  - apply elem_of_cons in Hk' as [->|Hk']; [|by eapply IH].
    apply (finished_no_cycle st); [done|]. unfold finished. set_solver.
  - destruct (has_cycle fuel tasks k st) as [[[] st1]|] eqn:E; try discriminate.
    pose proof (has_cycle_false_frame _ _ _ _ E) as (E1 & E2 & E3 & E4).
    pose proof (has_cycle_false_inv _ _ _ _ E Hinv) as Hinv1.
    assert (Hst1 : recursion_stack st1 = ∅) by congruence.
    apply elem_of_cons in Hk' as [->|Hk']; [|by eapply IH].
    apply (finished_no_cycle st1); [done|]. unfold finished. set_solver.
Qed.

End Traversal.

(** ** [detect_circular_dependencies] *)

Lemma dfs_inv_init tasks : dfs_inv tasks (mk_dfs_state ∅ ∅).
Proof. split; unfold finished; simpl; set_solver. Qed.

Lemma size_list_to_set_le (l : list string) :
  (size (list_to_set l : gset string) <= length l)%nat.
Proof.
  induction l as [|x l IH].
  - change (list_to_set [] : gset string) with (∅ : gset string).
    rewrite size_empty. simpl. lia.
  - change (list_to_set (x :: l) : gset string)
      with ({[x]} ∪ list_to_set l : gset string).
    rewrite size_union_alt, size_singleton.
    assert (Hsub : list_to_set l ∖ {[x]} ⊆ (list_to_set l : gset string))
      by set_solver.
    apply subseteq_size in Hsub. simpl. lia.
Qed.

Lemma on_cycle_key tasks x : on_cycle tasks x -> x ∈ dict_keys tasks.
Proof.
  intros H. assert (Hd : exists d, edge tasks x d).
  { unfold on_cycle in H. inversion H; eauto. }
  destruct Hd as [d Hd]. unfold edge, task_deps in Hd.
  destruct (dict_get tasks x) eqn:E; [|inversion Hd].
  by eapply dict_get_Some_key.
Qed.

Lemma detect_total tasks : is_Some (detect_circular_dependencies tasks).
Proof.
  unfold detect_circular_dependencies. apply detect_loop_total.
  - intros k Hk. unfold node_set, dict_nodes.
    apply elem_of_list_to_set, elem_of_app. by left.
  - simpl. unfold dfs_fuel.
    pose proof (size_list_to_set_le (dict_nodes tasks)) as Hle.
    assert (Hsub : node_set tasks ∖ ∅ ⊆ node_set tasks) by set_solver.
    apply subseteq_size in Hsub. unfold node_set in *.
    apply Nat.lt_succ_r. etrans; [exact Hsub|exact Hle].
Qed.

Lemma detect_raise tasks e :
  detect_circular_dependencies tasks = Some (Raise e) ->
  exists pre x post,
    dict_keys tasks = pre ++ x :: post /\
    e = CircularDependencyError (circular_dependency_msg x) /\
    leads_to_cycle tasks x /\
    (forall k, k ∈ pre -> ~ leads_to_cycle tasks k).
Proof.
  intros H. eapply detect_loop_raise; [exact H|apply dfs_inv_init|done].
Qed.

Lemma detect_ok tasks :
  detect_circular_dependencies tasks = Some (Ok tt) -> acyclic tasks.
Proof.
  intros H x Hx.
  apply (detect_loop_ok tasks _ _ _ H (dfs_inv_init tasks) eq_refl x).
  - by apply on_cycle_key.
  - exists x. split; [done|done].
Qed.

Lemma detect_acyclic_ok tasks :
  acyclic tasks -> detect_circular_dependencies tasks = Some (Ok tt).
Proof.
  intros Hac. destruct (detect_total tasks) as [[[]|e] H]; [done|].
  apply detect_raise in H as (_ & x & _ & _ & _ & (y & _ & Hy) & _).
  by destruct (Hac y).
Qed.

Lemma detect_cycle_raise tasks :
  has_cycle_graph tasks ->
  exists x, detect_circular_dependencies tasks
            = Some (Raise (CircularDependencyError (circular_dependency_msg x))).
Proof.
  intros [y Hy]. destruct (detect_total tasks) as [[[]|e] H].
  - apply detect_ok in H. by destruct (H y).
  - pose proof (detect_raise _ _ H) as (_ & x & _ & _ & -> & _). eauto.
Qed.

(** ** Strings *)

Lemma prefix_app (s t : string) : String.prefix s (s +:+ t) = true.
Proof.
  induction s as [|a s IH]; simpl.
  - destruct t; reflexivity.
  - destruct (ascii_dec a a) as [_|Hne]; [exact IH|by destruct Hne].
Qed.

Lemma str_in_prefix (sub s : string) :
  String.prefix sub s = true -> str_in sub s = true.
Proof. intros H. destruct s; cbn [str_in]; rewrite H; reflexivity. Qed.

Lemma str_in_here (sub post : string) : str_in sub (sub +:+ post) = true.
Proof. apply str_in_prefix, prefix_app. Qed.

Lemma str_in_skip (pre sub s : string) :
  str_in sub s = true -> str_in sub (pre +:+ s) = true.
Proof.
  intros H. induction pre as [|a pre IH].
  - exact H.
  - change (String a pre +:+ s) with (String a (pre +:+ s)).
    cbn [str_in]. rewrite IH. apply orb_true_r.
Qed.

(** ** Validation of one task *)

Lemma priority_check_true task :
  Z.ltb (priority task) PRIORITY_MIN || Z.gtb (priority task) PRIORITY_MAX = true
  <-> ~ priority_in_range task.
Proof.
  unfold priority_in_range. rewrite orb_true_iff, Z.ltb_lt, Z.gtb_gt. lia.
Qed.

Lemma priority_check_false task :
  Z.ltb (priority task) PRIORITY_MIN || Z.gtb (priority task) PRIORITY_MAX = false
  <-> priority_in_range task.
Proof.
  unfold priority_in_range. rewrite orb_false_iff, Z.ltb_ge, Z.gtb_ltb, Z.ltb_ge. lia.
Qed.

Lemma validate_task_bad_priority task ids :
  ~ priority_in_range task ->
  validate_task task ids = Raise (InvalidPriorityError (invalid_priority_msg task)).
Proof.
  intros H. apply priority_check_true in H. unfold validate_task. by rewrite H.
Qed.

Lemma validate_task_good_priority task ids :
  priority_in_range task ->
  validate_task task ids =
    (check_dependencies task (dependencies task) ids >>!
     if negb (Qle_bool 0 (estimated_hours task))
     then Raise (ValueError (negative_hours_msg task))
     else Ok tt).
Proof.
  intros H. apply priority_check_false in H. unfold validate_task. by rewrite H.
Qed.

Lemma check_dependencies_ok task deps ids :
  (forall d, d ∈ deps -> d ∈ ids) -> check_dependencies task deps ids = Ok tt.
Proof.
  induction deps as [|d deps IH]; simpl; intros H; [done|].
  destruct (decide (d ∈ ids)) as [_|Hn].
  - apply IH. intros d' Hd'. apply H. by right.
  - destruct Hn. apply H. left.
Qed.

(** The loop raises for the first dependency that is not a known id. *)
Lemma check_dependencies_missing task pre dep_id post ids :
  (forall d, d ∈ pre -> d ∈ ids) -> dep_id ∉ ids ->
  check_dependencies task (pre ++ dep_id :: post) ids
  = Raise (InvalidDependencyError (invalid_dependency_msg task dep_id)).
Proof.
  induction pre as [|d pre IH]; simpl; intros H Hn.
  - by destruct (decide (dep_id ∈ ids)).
  - destruct (decide (d ∈ ids)) as [_|Hd].
    + apply IH; [|done]. intros d' Hd'. apply H. by right.
    + destruct Hd. apply H. left.
Qed.

Lemma check_dependencies_result task deps ids :
  check_dependencies task deps ids = Ok tt \/
  exists dep_id, check_dependencies task deps ids
                 = Raise (InvalidDependencyError (invalid_dependency_msg task dep_id)).
Proof.
  induction deps as [|d deps IH]; simpl; [by left|].
  destruct (decide (d ∈ ids)); [exact IH|right; eauto].
Qed.


(** ** Normalization *)

Section Normalization.
Variable fromisoformat : string -> option datetime.

Lemma normalize_task_fields td t :
  normalize_task fromisoformat td = Ok t ->
  parse_deadline fromisoformat (td_deadline td) = Ok (deadline t) /\
  id t = td_id td /\ name t = td_name td /\ priority t = td_priority td /\
  dependencies t = td_dependencies td /\
  estimated_hours t = td_estimated_hours td.
Proof.
  unfold normalize_task.
  destruct (parse_deadline fromisoformat (td_deadline td)); [|discriminate].
  intros [= <-]. simpl. done.
Qed.

Lemma normalize_task_parsed td d :
  parse_deadline fromisoformat (td_deadline td) = Ok d ->
  exists t, normalize_task fromisoformat td = Ok t.
Proof. unfold normalize_task. intros ->. eauto. Qed.

Lemma dict_set_fresh {V : Type} (d : dict V) k v :
  k ∉ dict_keys d -> dict_set d k v = d ++ [(k, v)].
Proof.
  induction d as [|[k' v'] d IH]; simpl; intros H; [done|].
  destruct (String.eqb k' k) eqn:E.
  - apply String.eqb_eq in E. subst. destruct H. left.
  - rewrite IH; [done|]. intros Hin. apply H. by right.
Qed.

Lemma dict_keys_entries ts : dict_keys (task_entries ts) = map id ts.
Proof. unfold dict_keys, task_entries. rewrite map_map. done. Qed.

Lemma dict_values_entries ts : dict_values (task_entries ts) = ts.
Proof.
  unfold dict_values, task_entries. rewrite map_map. simpl. apply map_id.
Qed.

Lemma normalizes_ids tasks ts :
  Forall2 (fun td t => normalize_task fromisoformat td = Ok t) tasks ts -> map id ts = map td_id tasks.
Proof.
  induction 1 as [|td t tasks ts H _ IH]; simpl; [done|].
  apply normalize_task_fields in H as (_ & -> & _). by rewrite IH.
Qed.

Lemma normalize_loop_entries tasks :
  forall ts acc,
    Forall2 (fun td t => normalize_task fromisoformat td = Ok t) tasks ts ->
    NoDup (dict_keys acc ++ map td_id tasks) ->
    normalize_loop fromisoformat tasks acc = Ok (acc ++ task_entries ts).
Proof.
  induction tasks as [|td tasks IH]; intros ts acc H Hnd.
  - inversion H; subst. simpl. by rewrite app_nil_r.
  - inversion H as [|? t ? ts' Ht Hts]; subst. simpl. rewrite Ht.
    apply NoDup_app in Hnd as (Hacc & Hdis & Hnd).
    apply NoDup_cons in Hnd as [Hfresh Hnd'].
    rewrite dict_set_fresh by (intros Hin; apply (Hdis _ Hin); left).
    rewrite (IH ts').
    + apply normalize_task_fields in Ht as (_ & <- & _).
      by rewrite <- app_assoc.
    + done.
    + unfold dict_keys. rewrite map_app. simpl. rewrite <- app_assoc. simpl.
      apply NoDup_app. split; [done|]. split.
      * intros k Hk Hk'. apply (Hdis k Hk). done.
      * by apply NoDup_cons.
Qed.

Lemma normalize_loop_inv tasks :
  forall acc d,
    normalize_loop fromisoformat tasks acc = Ok d ->
    exists ts, Forall2 (fun td t => normalize_task fromisoformat td = Ok t) tasks ts.
Proof.
  induction tasks as [|td tasks IH]; simpl; intros acc d H; [by exists []|].
  destruct (normalize_task fromisoformat td) as [t|] eqn:E; [|discriminate].
  apply IH in H as [ts Hts]. exists (t :: ts). by constructor.
Qed.

Lemma normalizes_exists tasks :
  Forall (fun td => exists d,
            parse_deadline fromisoformat (td_deadline td) = Ok d) tasks ->
  exists ts, Forall2 (fun td t => normalize_task fromisoformat td = Ok t) tasks ts.
Proof.
  induction 1 as [|td tasks [d Hd] _ [ts IH]]; [by exists []|].
  destruct (normalize_task_parsed td d Hd) as [t Ht].
  exists (t :: ts). by constructor.
Qed.

(** Parsing stops the loop at the first record whose deadline is refused. *)
Lemma normalize_loop_raise pre td post e :
  forall acc,
    Forall (fun td' => exists d,
              parse_deadline fromisoformat (td_deadline td') = Ok d) pre ->
    parse_deadline fromisoformat (td_deadline td) = Raise e ->
    normalize_loop fromisoformat (pre ++ td :: post) acc = Raise e.
Proof.
  induction pre as [|td' pre IH]; simpl; intros acc Hpre He.
  - unfold normalize_task. by rewrite He.
  - apply Forall_cons in Hpre as [[d Hd] Hpre].
    unfold normalize_task at 1. rewrite Hd. by apply IH.
Qed.

Lemma normalize_tasks_entries tasks ts :
  Forall2 (fun td t => normalize_task fromisoformat td = Ok t) tasks ts -> NoDup (map td_id tasks) ->
  normalize_tasks fromisoformat tasks = Ok (task_entries ts).
Proof.
  intros H Hnd. unfold normalize_tasks.
  by rewrite (normalize_loop_entries tasks ts []).
Qed.

(** *** The validation loop *)

Lemma validate_all_ok ts ids :
  Forall (fun t => validate_task t ids = Ok tt) ts ->
  validate_all ts ids = Ok tt.
Proof. induction 1 as [|t ts H _ IH]; simpl; [done|]. by rewrite H. Qed.

(** The loop raises what the first task that fails its checks raises. *)
Lemma validate_all_first pre t post ids e :
  Forall (fun t' => validate_task t' ids = Ok tt) pre ->
  validate_task t ids = Raise e ->
  validate_all (pre ++ t :: post) ids = Raise e.
Proof.
  induction 1 as [|t' pre H _ IH]; simpl; intros Ht.
  - by rewrite Ht.
  - rewrite H. simpl. by apply IH.
Qed.

Lemma valid_task_dict_validates ids td t :
  valid_task_dict fromisoformat ids td ->
  normalize_task fromisoformat td = Ok t ->
  validate_task t ids = Ok tt.
Proof.
  intros (_ & Hp & Hd & Hh) Ht.
  apply normalize_task_fields in Ht as (_ & _ & _ & Ep & Ed & Eh).
  rewrite validate_task_good_priority by (unfold priority_in_range; by rewrite Ep).
  rewrite check_dependencies_ok by (by rewrite Ed). simpl.
  rewrite Eh. apply Qle_bool_iff in Hh. by rewrite Hh.
Qed.

(** *** The graph of the normalized dictionary *)

Lemma dict_get_entries ts k t :
  dict_get (task_entries ts) k = Some t -> t ∈ ts /\ id t = k.
Proof.
  induction ts as [|t' ts IH]; simpl; [discriminate|].
  destruct (String.eqb (id t') k) eqn:E.
  - apply String.eqb_eq in E. intros [= <-]. split; [left|done].
  - intros H. apply IH in H as [? ?]. split; [by right|done].
Qed.

Lemma normalizes_elem tasks ts t :
  Forall2 (fun td t => normalize_task fromisoformat td = Ok t) tasks ts -> t ∈ ts ->
  exists td, td ∈ tasks /\ normalize_task fromisoformat td = Ok t.
Proof.
  induction 1 as [|td t' tasks ts H _ IH]; intros Hin; [inversion Hin|].
  apply elem_of_cons in Hin as [->|Hin].
  - exists td. split; [left|done].
  - destruct (IH Hin) as (td' & ? & ?). exists td'. split; [by right|done].
Qed.

Lemma edge_entries_batch tasks ts x y :
  Forall2 (fun td t => normalize_task fromisoformat td = Ok t) tasks ts ->
  edge (task_entries ts) x y -> batch_edge tasks x y.
Proof.
  intros H. unfold edge, task_deps.
  destruct (dict_get (task_entries ts) x) as [t|] eqn:E; [|by intros Hy; inversion Hy].
  apply dict_get_entries in E as [Hin <-]. intros Hy.
  destruct (normalizes_elem _ _ _ H Hin) as (td & Htd & Ht).
  apply normalize_task_fields in Ht as (_ & Ei & _ & _ & Ed & _).
  exists td. rewrite <- Ei, <- Ed. done.
Qed.

Lemma acyclic_entries tasks ts :
  Forall2 (fun td t => normalize_task fromisoformat td = Ok t) tasks ts -> acyclic_batch tasks ->
  acyclic (task_entries ts).
Proof.
  intros H Hac x Hx. apply (Hac x).
  unfold on_cycle in Hx.
  apply (tc_congruence (fun k => k) (batch_edge tasks)) in Hx; [done|].
  intros a b. by apply edge_entries_batch.
Qed.

Lemma dict_get_entries_elem tasks :
  forall ts td,
    Forall2 (fun td t => normalize_task fromisoformat td = Ok t) tasks ts -> NoDup (map td_id tasks) -> td ∈ tasks ->
    exists t, dict_get (task_entries ts) (td_id td) = Some t /\
              dependencies t = td_dependencies td.
Proof.
  induction tasks as [|td' tasks IH]; intros ts td H Hnd Hin; [inversion Hin|].
  inversion H as [|? t ? ts' Ht Hts]; subst.
  apply NoDup_cons in Hnd as [Hfresh Hnd]. simpl.
  pose proof (normalize_task_fields _ _ Ht) as (_ & Ei & _ & _ & Ed & _).
  apply elem_of_cons in Hin as [->|Hin].
  - rewrite Ei, String.eqb_refl. eauto.
  - destruct (String.eqb (id t) (td_id td)) eqn:E; [|by apply IH].
    apply String.eqb_eq in E. destruct Hfresh.
    rewrite <- Ei, E. apply list_elem_of_fmap. by exists td.
Qed.

Lemma batch_edge_entries tasks ts x y :
  Forall2 (fun td t => normalize_task fromisoformat td = Ok t) tasks ts -> NoDup (map td_id tasks) ->
  batch_edge tasks x y -> edge (task_entries ts) x y.
Proof.
  intros H Hnd (td & Hin & <- & Hy).
  destruct (dict_get_entries_elem _ _ _ H Hnd Hin) as (t & Et & Ed).
  unfold edge, task_deps. by rewrite Et, Ed.
Qed.

(** Acyclicity of a batch can be decided by running the detector. *)
Lemma acyclic_batch_by_detect tasks ts :
  Forall2 (fun td t => normalize_task fromisoformat td = Ok t) tasks ts -> NoDup (map td_id tasks) ->
  detect_circular_dependencies (task_entries ts) = Some (Ok tt) ->
  acyclic_batch tasks.
Proof.
  intros H Hnd Hd x Hx. apply (detect_ok _ Hd x). unfold on_cycle.
  apply (tc_congruence (fun k => k) (edge (task_entries ts))) in Hx; [done|].
  intros a b. by apply batch_edge_entries.
Qed.

(** *** The entry point *)

(** After normalization the entry point is the two checks and then the
    input itself. *)
Lemma prioritize_tasks_normalized tasks ts :
  tasks <> [] -> NoDup (map td_id tasks) -> Forall2 (fun td t => normalize_task fromisoformat td = Ok t) tasks ts ->
  prioritize_tasks fromisoformat tasks =
    match validate_all ts (batch_ids tasks) with
    | Raise e => Some (Raise e)
    | Ok _ =>
        match detect_circular_dependencies (task_entries ts) with
        | None => None
        | Some (Raise e) => Some (Raise e)
        | Some (Ok _) => Some (Ok tasks)
        end
    end.
Proof.
  intros Hne Hnd H. unfold prioritize_tasks.
  destruct tasks as [|td tasks]; [done|].
  rewrite (normalize_tasks_entries _ ts H Hnd), dict_values_entries. done.
Qed.

Lemma prioritize_tasks_parse_error pre td post e :
  Forall (fun td' => exists d,
            parse_deadline fromisoformat (td_deadline td') = Ok d) pre ->
  parse_deadline fromisoformat (td_deadline td) = Raise e ->
  prioritize_tasks fromisoformat (pre ++ td :: post) = Some (Raise e).
Proof.
  intros Hpre He. unfold prioritize_tasks, normalize_tasks.
  rewrite (normalize_loop_raise pre td post e [] Hpre He).
  by destruct pre.
Qed.

(** The call always returns or raises: the fuel never runs out. *)
Lemma prioritize_tasks_total tasks :
  is_Some (prioritize_tasks fromisoformat tasks).
Proof.
  unfold prioritize_tasks. destruct tasks as [|td tasks]; [eauto|].
  destruct (normalize_tasks _ _) as [n|]; [|eauto].
  destruct (validate_all _ _); [|eauto].
  destruct (detect_total n) as [[[]|e] ->]; eauto.
Qed.

(** Whatever the batch, a successful call returns its argument. *)
Lemma prioritize_tasks_returns_input tasks out :
  prioritize_tasks fromisoformat tasks = Some (Ok out) -> out = tasks.
Proof.
  unfold prioritize_tasks. destruct tasks as [|td tasks]; [by intros [= <-]|].
  destruct (normalize_tasks _ _) as [n|]; [|discriminate].
  destruct (validate_all _ _); [|discriminate].
  destruct (detect_circular_dependencies n) as [[[]|]|]; try discriminate.
  by intros [= <-].
Qed.

Lemma prioritize_tasks_valid tasks :
  valid_batch fromisoformat tasks -> acyclic_batch tasks ->
  prioritize_tasks fromisoformat tasks = Some (Ok tasks).
Proof.
  intros [Hnd Hv] Hac. destruct tasks as [|td0 tasks0] eqn:Etasks; [done|].
  rewrite <- Etasks in *. assert (Hne : tasks <> []) by (by rewrite Etasks).
  clear Etasks.
  destruct (normalizes_exists tasks) as [ts Hts].
  { eapply Forall_impl; [exact Hv|]. by intros td (Hp & _). }
  rewrite (prioritize_tasks_normalized tasks ts Hne Hnd Hts).
  rewrite validate_all_ok.
  - by rewrite (detect_acyclic_ok _ (acyclic_entries _ _ Hts Hac)).
  - clear Hne Hnd Hac. revert Hv. generalize (batch_ids tasks). intros ids Hv.
    induction Hts as [|td t tasks ts Ht _ IH]; [done|].
    apply Forall_cons in Hv as [Hv1 Hv2]. constructor; [|by apply IH].
    by eapply valid_task_dict_validates.
Qed.

End Normalization.

(** ** Concrete batches *)

Lemma simple_batch_normalizes :
  Forall2 (fun td t => normalize_task fromisoformat_date td = Ok t) simple_batch
    [ mk_Task "2" "Implement feature" (midnight 2024 1 15) 5 ["1"] 8;
      mk_Task "1" "Setup project" (midnight 2024 1 20) 3 [] 2 ].
Proof. repeat constructor. Qed.

Lemma simple_batch_valid : valid_batch fromisoformat_date simple_batch.
Proof.
  split.
  - apply (bool_decide_unpack _). by vm_compute.
  - repeat constructor; try (by eexists; vm_compute); try (by vm_compute);
      intros dep_id Hd; apply (bool_decide_unpack _);
      repeat (apply elem_of_cons in Hd as [->|Hd]; [by vm_compute|]);
      inversion Hd.
Qed.

Lemma simple_batch_acyclic : acyclic_batch simple_batch.
Proof.
  eapply acyclic_batch_by_detect; [exact simple_batch_normalizes| |by vm_compute].
  apply (bool_decide_unpack _). by vm_compute.
Qed.

Lemma worked_example_normalizes :
  Forall2 (fun td t => normalize_task fromisoformat_date td = Ok t) worked_example
    [ mk_Task "1" "Setup project" (midnight 2024 1 25) 5 [] 2;
      mk_Task "2" "Write tests" (midnight 2024 1 20) 4 ["1"] 4;
      mk_Task "3" "Implement feature" (midnight 2024 1 22) 5 ["1"] 8;
      mk_Task "4" "Code review" (midnight 2024 1 18) 3 ["2"; "3"] 2;
      mk_Task "5" "Documentation" (midnight 2024 1 30) 2 ["4"] 3 ].
Proof. repeat constructor. Qed.

Lemma worked_example_valid : valid_batch fromisoformat_date worked_example.
Proof.
  split.
  - apply (bool_decide_unpack _). by vm_compute.
  - repeat constructor; try (by eexists; vm_compute); try (by vm_compute);
      intros dep_id Hd; apply (bool_decide_unpack _);
      repeat (apply elem_of_cons in Hd as [->|Hd]; [by vm_compute|]);
      inversion Hd.
Qed.

Lemma worked_example_acyclic : acyclic_batch worked_example.
Proof.
  eapply acyclic_batch_by_detect; [exact worked_example_normalizes| |by vm_compute].
  apply (bool_decide_unpack _). by vm_compute.
Qed.

(** * The claims *)

(** C1 (dependency respect), at the batch of [test_simple_dependencies]:
    the batch is valid and acyclic, task ["2"] depends on task ["1"], and
    [prioritize_tasks] returns the batch in its input order, ["2"] first: the
    returned sequence does not respect the dependencies. The body ends with
    the placeholder [return tasks]; no ordering is computed. *)
Theorem C1_dependency_order_not_established :
  valid_batch fromisoformat_date simple_batch /\
  acyclic_batch simple_batch /\
  prioritize_tasks fromisoformat_date simple_batch = Some (Ok simple_batch) /\
  ~ respects_dependencies simple_batch.
Proof.
  split; [exact simple_batch_valid|]. split; [exact simple_batch_acyclic|].
  split; [by vm_compute|].
  intros H. specialize (H 0%nat simple_task2 "1" 1%nat eq_refl).
  assert (Hlt : (1 < 0)%nat); [|lia].
  apply H; [left|by vm_compute].
Qed.

(** C2 (totality): on a valid, acyclic batch with unique ids the call
    returns, and the ids of the returned sequence are a permutation of the
    ids of the input, each exactly once. *)
Theorem C2_output_is_permutation (fromisoformat : string -> option datetime)
    (tasks : list TaskDict) :
  valid_batch fromisoformat tasks -> acyclic_batch tasks ->
  exists out,
    prioritize_tasks fromisoformat tasks = Some (Ok out) /\
    Permutation (map td_id out) (map td_id tasks) /\
    NoDup (map td_id out) /\
    length out = length tasks.
Proof.
  intros Hv Hac. exists tasks.
  split; [by apply prioritize_tasks_valid|].
  split; [done|]. split; [by destruct Hv|done].
Qed.

Lemma C2_output_is_permutation_witness :
  valid_batch fromisoformat_date worked_example /\
  acyclic_batch worked_example /\
  exists out,
    prioritize_tasks fromisoformat_date worked_example = Some (Ok out) /\
    Permutation (map td_id out) (map td_id worked_example) /\
    NoDup (map td_id out) /\
    length out = length worked_example.
Proof.
  split; [exact worked_example_valid|]. split; [exact worked_example_acyclic|].
  exact (C2_output_is_permutation fromisoformat_date worked_example
           worked_example_valid worked_example_acyclic).
Defined.

(** C3 (worked example): on the worked example given in input order
    1,2,3,4,5 the call returns the ids in the order 1,2,3,4,5, which is not
    the expected 1,3,2,4,5. *)
Theorem C3_worked_example_order :
  returned_ids (prioritize_tasks fromisoformat_date worked_example)
    = Some ["1"; "2"; "3"; "4"; "5"] /\
  returned_ids (prioritize_tasks fromisoformat_date worked_example)
    <> Some ["1"; "3"; "2"; "4"; "5"].
Proof. split; [by vm_compute|]. by vm_compute. Qed.

(** C4 (cycle detection): on a mapping in which all dependency references
    resolve, [detect_circular_dependencies] raises [CircularDependencyError]
    exactly when the dependency graph has a cycle; a task that lists its own
    id is detected, and an acyclic graph raises nothing. *)
Theorem C4_detect_iff_cycle (tasks : dict Task) :
  deps_resolve tasks ->
  ((exists msg, detect_circular_dependencies tasks
                = Some (Raise (CircularDependencyError msg)))
   <-> has_cycle_graph tasks) /\
  (forall k task,
     dict_get tasks k = Some task -> k ∈ dependencies task ->
     exists msg, detect_circular_dependencies tasks
                 = Some (Raise (CircularDependencyError msg))) /\
  (acyclic tasks -> detect_circular_dependencies tasks = Some (Ok tt)).
Proof.
  intros _.
  assert (Hcyc : has_cycle_graph tasks ->
                 exists msg, detect_circular_dependencies tasks
                             = Some (Raise (CircularDependencyError msg))).
  { intros H. destruct (detect_cycle_raise tasks H) as [x Hx]. eauto. }
  split; [split|split].
  - intros [msg H]. apply detect_raise in H as (_ & x & _ & _ & _ & Hx & _).
    destruct Hx as (y & _ & Hy). by exists y.
  - exact Hcyc.
  - intros k task Hk Hself. apply Hcyc. exists k. apply tc_once.
    unfold edge, task_deps. by rewrite Hk.
  - apply detect_acyclic_ok.
Qed.

Lemma tail_cycle_resolves : deps_resolve tail_cycle.
Proof.
  intros k task dep_id Hk Hd. unfold tail_cycle in Hk. cbn [dict_get] in Hk.
  assert (Hdep : dep_id = "B").
  { repeat (destruct (String.eqb _ k);
              [injection Hk as Hk; subst task; simpl in Hd;
               by apply list_elem_of_singleton in Hd|]).
    discriminate Hk. }
  subst dep_id. apply (bool_decide_unpack _). by vm_compute.
Qed.

Lemma C4_detect_iff_cycle_witness :
  deps_resolve tail_cycle /\
  ((exists msg, detect_circular_dependencies tail_cycle
                = Some (Raise (CircularDependencyError msg)))
   <-> has_cycle_graph tail_cycle) /\
  (forall k task,
     dict_get tail_cycle k = Some task -> k ∈ dependencies task ->
     exists msg, detect_circular_dependencies tail_cycle
                 = Some (Raise (CircularDependencyError msg))) /\
  (acyclic tail_cycle -> detect_circular_dependencies tail_cycle = Some (Ok tt)).
Proof.
  split; [exact tail_cycle_resolves|].
  exact (C4_detect_iff_cycle tail_cycle tail_cycle_resolves).
Defined.

(** C5 (priority range): [validate_task] raises [InvalidPriorityError]
    exactly when the priority is below 1 or above 5, and the message then
    contains the task's id and the decimal text of the priority. *)
Theorem C5_invalid_priority (task : Task) (all_task_ids : gset string) :
  ((exists msg, validate_task task all_task_ids = Raise (InvalidPriorityError msg))
   <-> (priority task < PRIORITY_MIN \/ priority task > PRIORITY_MAX)) /\
  (forall msg,
     validate_task task all_task_ids = Raise (InvalidPriorityError msg) ->
     str_in (id task) msg = true /\
     str_in (str_of_int (priority task)) msg = true).
Proof.
  assert (Hin : priority_in_range task ->
                forall msg, validate_task task all_task_ids
                            <> Raise (InvalidPriorityError msg)).
  { intros Hr msg. rewrite (validate_task_good_priority _ _ Hr).
    destruct (check_dependencies_result task (dependencies task) all_task_ids)
      as [->|[d ->]]; simpl; [|discriminate].
    destruct (negb _); discriminate. }
  assert (Hdec : priority_in_range task \/ ~ priority_in_range task)
    by (unfold priority_in_range; lia).
  split; [split|].
  - intros [msg H]. destruct Hdec as [Hr|Hr]; [by destruct (Hin Hr msg)|].
    unfold priority_in_range in Hr. lia.
  - intros H. exists (invalid_priority_msg task).
    apply validate_task_bad_priority. unfold priority_in_range. lia.
  - intros msg H. destruct Hdec as [Hr|Hr]; [by destruct (Hin Hr msg)|].
    rewrite (validate_task_bad_priority _ _ Hr) in H. injection H as <-.
    unfold invalid_priority_msg. split.
    + do 2 apply str_in_skip. apply str_in_here.
    + do 5 apply str_in_skip. apply str_in_here.
Qed.

Lemma tc_closed {A : Type} (R : relation A) (P : A -> Prop) x y :
  (forall a b, P a -> R a b -> P b) -> P x -> tc R x y -> P y.
Proof.
  intros Hcl Hx Hxy. induction Hxy as [a b Hab|a b c Hab _ IH]; eauto.
Qed.

Lemma tail_cycle_edge x y : edge tail_cycle x y -> y = "B".
Proof.
  unfold edge, task_deps, tail_cycle. cbn [dict_get].
  repeat (destruct (String.eqb _ x);
            [simpl; by intros ->%list_elem_of_singleton|]).
  intros H. inversion H.
Qed.

(** C6, as stated, fails: in the mapping where ["A"] depends on ["B"] and
    ["B"] on itself, the error names ["A"], the key the traversal started
    from, and ["A"] lies on no cycle (the node met again on the path is
    ["B"]). *)
Lemma C6_named_task_not_on_cycle :
  detect_circular_dependencies tail_cycle
  = Some (Raise (CircularDependencyError (circular_dependency_msg "A"))) /\
  ~ on_cycle tail_cycle "A".
Proof.
  split; [by vm_compute|].
  intros H. assert (HA : "A" = "B"); [|discriminate HA].
  unfold on_cycle in H. inversion H as [a b Hab|a b c Hab Hbc]; subst.
  - by apply tail_cycle_edge in Hab.
  - apply (tc_closed (edge tail_cycle) (fun k => k = "B") b); [|by eapply tail_cycle_edge|done].
    intros ? ? _. apply tail_cycle_edge.
Qed.

(** C6, amended: the id named in the error is a key of the mapping, the
    first one in key order from which a cycle can be reached along
    dependency edges; it is the key the traversal started from, and need not
    lie on the cycle itself. *)
Theorem C6_named_task_leads_to_cycle (tasks : dict Task) (msg : string) :
  detect_circular_dependencies tasks
  = Some (Raise (CircularDependencyError msg)) ->
  exists pre x post,
    dict_keys tasks = pre ++ x :: post /\
    msg = circular_dependency_msg x /\
    leads_to_cycle tasks x /\
    (forall k, k ∈ pre -> ~ leads_to_cycle tasks k).
Proof.
  intros H. apply detect_raise in H as (pre & x & post & Hk & He & Hx & Hpre).
  injection He as ->. by exists pre, x, post.
Qed.

Lemma C6_named_task_leads_to_cycle_witness :
  detect_circular_dependencies tail_cycle
  = Some (Raise (CircularDependencyError (circular_dependency_msg "A"))) /\
  exists pre x post,
    dict_keys tail_cycle = pre ++ x :: post /\
    circular_dependency_msg "A" = circular_dependency_msg x /\
    leads_to_cycle tail_cycle x /\
    (forall k, k ∈ pre -> ~ leads_to_cycle tail_cycle k).
Proof.
  split; [vm_compute; reflexivity|].
  apply (C6_named_task_leads_to_cycle tail_cycle (circular_dependency_msg "A")).
  vm_compute. reflexivity.
Defined.

(** C7, as stated, fails across a batch: both records have a priority out
    of range, yet the call raises the [ValueError] for the deadline text of
    the second one, not the [InvalidPriorityError] of the first:
    [normalize_tasks] parses every deadline before any check runs. *)
Lemma C7_unparseable_deadline_raised_first :
  NoDup (map td_id bad_deadline_batch) /\
  Forall (fun td => td_priority td < PRIORITY_MIN \/ td_priority td > PRIORITY_MAX)
         bad_deadline_batch /\
  prioritize_tasks fromisoformat_date bad_deadline_batch
  = Some (Raise (ValueError "Invalid date format: not-a-date")).
Proof.
  split; [apply (bool_decide_unpack _); by vm_compute|].
  split; [|by vm_compute].
  repeat constructor; unfold PRIORITY_MIN, PRIORITY_MAX; simpl; lia.
Qed.

(** C7, amended: within one task the priority check comes first, then the
    dependencies in list order, then the hours, and the first failure is the
    one raised; across a batch with unique ids whose deadlines all parse, the
    call raises what the first record that fails its checks raises; when a
    deadline does not parse, the call raises the [ValueError] of the first
    such record, before any check. *)
Theorem C7_first_violation_wins (fromisoformat : string -> option datetime) :
  (forall task ids,
     ~ priority_in_range task ->
     validate_task task ids
     = Raise (InvalidPriorityError (invalid_priority_msg task))) /\
  (forall task ids pre dep_id post,
     priority_in_range task ->
     dependencies task = pre ++ dep_id :: post ->
     (forall d, d ∈ pre -> d ∈ ids) -> dep_id ∉ ids ->
     validate_task task ids
     = Raise (InvalidDependencyError (invalid_dependency_msg task dep_id))) /\
  (forall task ids,
     priority_in_range task ->
     (forall d, d ∈ dependencies task -> d ∈ ids) ->
     (estimated_hours task < 0)%Q ->
     validate_task task ids = Raise (ValueError (negative_hours_msg task))) /\
  (forall task ids,
     priority_in_range task ->
     (forall d, d ∈ dependencies task -> d ∈ ids) ->
     (0 <= estimated_hours task)%Q ->
     validate_task task ids = Ok tt) /\
  (forall pre td post ts_pre t ts_post e,
     NoDup (map td_id (pre ++ td :: post)) ->
     Forall2 (fun td' t' => normalize_task fromisoformat td' = Ok t') pre ts_pre ->
     normalize_task fromisoformat td = Ok t ->
     Forall2 (fun td' t' => normalize_task fromisoformat td' = Ok t') post ts_post ->
     Forall (fun t' => validate_task t' (batch_ids (pre ++ td :: post)) = Ok tt)
            ts_pre ->
     validate_task t (batch_ids (pre ++ td :: post)) = Raise e ->
     prioritize_tasks fromisoformat (pre ++ td :: post) = Some (Raise e)) /\
  (forall pre td post e,
     Forall (fun td' => exists d,
               parse_deadline fromisoformat (td_deadline td') = Ok d) pre ->
     parse_deadline fromisoformat (td_deadline td) = Raise e ->
     prioritize_tasks fromisoformat (pre ++ td :: post) = Some (Raise e)).
Proof.
  split; [|split; [|split; [|split; [|split]]]].
  - intros task ids. apply validate_task_bad_priority.
  - intros task ids pre dep_id post Hr Hd Hpre Hn.
    rewrite (validate_task_good_priority _ _ Hr), Hd.
    by rewrite check_dependencies_missing.
  - intros task ids Hr Hd Hh.
    rewrite (validate_task_good_priority _ _ Hr), check_dependencies_ok by done.
    simpl. destruct (Qle_bool 0 (estimated_hours task)) eqn:E; [|done].
    apply Qle_bool_iff in E. by apply Qlt_not_le in Hh.
  - intros task ids Hr Hd Hh.
    rewrite (validate_task_good_priority _ _ Hr), check_dependencies_ok by done.
    simpl. apply Qle_bool_iff in Hh. by rewrite Hh.
  - intros pre td post ts_pre t ts_post e Hnd Hpre Ht Hpost Hok He.
    rewrite (prioritize_tasks_normalized fromisoformat _ (ts_pre ++ t :: ts_post)).
    + by rewrite (validate_all_first ts_pre t ts_post _ e Hok He).
    + by destruct pre.
    + done.
    + apply Forall2_app; [done|by constructor].
  - apply prioritize_tasks_parse_error.
Qed.

Lemma C7_first_violation_wins_witness :
  prioritize_tasks fromisoformat_date two_invalid
  = Some (Raise (InvalidPriorityError
                   (invalid_priority_msg
                      (mk_Task "1" "First" (midnight 2024 1 15) 0 ["999"] 2)))).
Proof.
  pose proof (C7_first_violation_wins fromisoformat_date) as (_ & _ & _ & _ & H & _).
  apply (H [] (mk_TaskDict "1" "First" (DeadlineStr "2024-01-15") 0 ["999"] 2)
           [mk_TaskDict "2" "Second" (DeadlineStr "2024-01-20") 6 [] 2]
           [] (mk_Task "1" "First" (midnight 2024 1 15) 0 ["999"] 2)
           [mk_Task "2" "Second" (midnight 2024 1 20) 6 [] 2]).
  - apply (bool_decide_unpack _). vm_compute. reflexivity.
  - constructor.
  - vm_compute. reflexivity.
  - repeat constructor.
  - constructor.
  - vm_compute. reflexivity.
Defined.

(** C8, as stated, fails: for the single record of [test_single_task],
    whose deadline is the text 2024-01-15, the call succeeds and the
    returned record still carries the text, not a parsed time value. *)
Lemma C8_string_deadline_not_normalized :
  prioritize_tasks fromisoformat_date [single_task] = Some (Ok [single_task]) /\
  ~ Forall deadline_normalized [single_task].
Proof.
  split; [by vm_compute|].
  intros H. apply Forall_cons in H as [[d Hd] _]. discriminate Hd.
Qed.

(** C8, amended: on success every returned record is a record of the
    input, unchanged: the same fields with the same values, the deadline in
    the representation the input supplied (a text stays a text); parsed
    deadlines live only in the internal [Task] copies. *)
Theorem C8_output_records_are_input_records
    (fromisoformat : string -> option datetime) (tasks out : list TaskDict) :
  prioritize_tasks fromisoformat tasks = Some (Ok out) ->
  forall r, r ∈ out -> r ∈ tasks.
Proof. intros H r Hr. by rewrite <- (prioritize_tasks_returns_input _ _ _ H). Qed.

Lemma C8_output_records_are_input_records_witness :
  prioritize_tasks fromisoformat_date [single_task] = Some (Ok [single_task]) /\
  forall r, r ∈ [single_task] -> r ∈ [single_task].
Proof.
  assert (H : prioritize_tasks fromisoformat_date [single_task]
              = Some (Ok [single_task]))
    by (vm_compute; reflexivity).
  split; [exact H|].
  exact (C8_output_records_are_input_records fromisoformat_date
           [single_task] [single_task] H).
Defined.

(** C9 (unresolvable dependencies): [detect_circular_dependencies] always
    returns or raises [CircularDependencyError] for a key, whatever the
    mapping; an id that is not a key has no outgoing edge and lies on no
    cycle, and [has_cycle] on it, when it is not on the path, answers [False]
    after marking it visited. *)
Theorem C9_missing_dependency_is_leaf (tasks : dict Task) :
  ((detect_circular_dependencies tasks = Some (Ok tt)) \/
   (exists k, k ∈ dict_keys tasks /\
      detect_circular_dependencies tasks
      = Some (Raise (CircularDependencyError (circular_dependency_msg k))))) /\
  (forall x, x ∉ dict_keys tasks ->
     task_deps tasks x = [] /\
     ~ on_cycle tasks x /\
     forall fuel st, x ∉ recursion_stack st ->
       exists st',
         has_cycle (S fuel) tasks x st = Some (false, st') /\
         recursion_stack st' = recursion_stack st /\
         visited st' = {[x]} ∪ visited st).
Proof.
  split.
  - destruct (detect_total tasks) as [[[]|e] H]; [by left|right].
    pose proof (detect_raise _ _ H) as (pre & k & post & Hk & -> & _).
    exists k. split; [|done]. rewrite Hk. apply elem_of_app. right. left.
  - intros x Hx.
    assert (Hdeps : task_deps tasks x = []).
    { unfold task_deps. destruct (dict_get tasks x) eqn:E; [|done].
      destruct Hx. by eapply dict_get_Some_key. }
    split; [done|]. split; [by intros ?%on_cycle_key|].
    intros fuel st Hs. simpl.
    destruct (decide (x ∈ recursion_stack st)); [done|].
    destruct (decide (x ∈ visited st)) as [Hv|Hv].
    + exists st. split; [done|]. split; [done|]. set_solver.
    + rewrite Hdeps. simpl. eexists. split; [done|]. simpl. split; set_solver.
Qed.

Lemma C9_missing_dependency_is_leaf_witness :
  detect_circular_dependencies dangling = Some (Ok tt) /\
  task_deps dangling "999" = [] /\ ~ on_cycle dangling "999".
Proof.
  pose proof (C9_missing_dependency_is_leaf dangling) as [_ H].
  split; [vm_compute; reflexivity|].
  assert (Hkey : "999" ∉ dict_keys dangling).
  { apply (bool_decide_unpack _). vm_compute. exact I. }
  destruct (H "999" Hkey) as (H1 & H2 & _). split; assumption.
Defined.

(** C10 (idempotence): [parse_deadline] returns a [datetime] argument
    unchanged, so parsing the result of a successful parse gives that result
    again. *)
Theorem C10_parse_deadline_idempotent (fromisoformat : string -> option datetime) :
  (forall d, parse_deadline fromisoformat (DeadlineDatetime d) = Ok d) /\
  (forall x d,
     parse_deadline fromisoformat x = Ok d ->
     parse_deadline fromisoformat (DeadlineDatetime d)
     = parse_deadline fromisoformat x).
Proof. split; [done|]. intros x d ->. done. Qed.

(** * Further properties of the module *)

(** ** Assignment to a dictionary *)

Lemma dict_get_set_eq {V : Type} (d : dict V) k v :
  dict_get (dict_set d k v) k = Some v.
Proof.
  induction d as [|[k' v'] d IH]; simpl.
  - by rewrite String.eqb_refl.
  - destruct (String.eqb k' k) eqn:E; simpl; rewrite E; done.
Qed.

Lemma dict_get_set_ne {V : Type} (d : dict V) k k' v :
  k <> k' -> dict_get (dict_set d k v) k' = dict_get d k'.
Proof.
  intros Hne. induction d as [|[k0 v0] d IH]; simpl.
  - destruct (String.eqb k k') eqn:E; [|done].
    apply String.eqb_eq in E. by destruct Hne.
  - destruct (String.eqb k0 k) eqn:E; simpl.
    + apply String.eqb_eq in E. subst k0.
      destruct (String.eqb k k') eqn:E'; [|done].
      apply String.eqb_eq in E'. by destruct Hne.
    + by rewrite IH.
Qed.

Lemma dict_keys_set {V : Type} (d : dict V) k v :
  dict_keys (dict_set d k v)
  = if decide (k ∈ dict_keys d) then dict_keys d else dict_keys d ++ [k].
Proof.
  induction d as [|[k' v'] d IH]; simpl.
  - destruct (decide (k ∈ [])) as [H|_]; [inversion H|done].
  - destruct (String.eqb k' k) eqn:E; simpl.
    + apply String.eqb_eq in E. subst k'.
      destruct (decide (k ∈ k :: dict_keys d)) as [_|Hn]; [done|].
      destruct Hn. left.
    + assert (Hne : k <> k').
      { intros ->. by rewrite String.eqb_refl in E. }
      rewrite IH.
      destruct (decide (k ∈ dict_keys d)) as [Hin|Hin];
        destruct (decide (k ∈ k' :: dict_keys d)) as [Hin'|Hin']; try done.
      * destruct Hin'. by right.
      * apply elem_of_cons in Hin' as [?|?]; done.
Qed.



(** ** [normalize_tasks] *)

Section NormalizeDuplicates.
Variable fromisoformat : string -> option datetime.

Lemma normalize_loop_keys tasks :
  forall acc d,
    normalize_loop fromisoformat tasks acc = Ok d ->
    dict_keys d = dict_keys acc ++ fresh_ids (dict_keys acc) (map td_id tasks).
Proof.
  induction tasks as [|td tasks IH]; simpl; intros acc d H.
  - injection H as <-. by rewrite app_nil_r.
  - destruct (normalize_task fromisoformat td) as [t|]; [|discriminate].
    apply IH in H. rewrite H, dict_keys_set.
    destruct (decide (td_id td ∈ dict_keys acc)); [done|].
    by rewrite <- app_assoc.
Qed.

Lemma normalize_loop_split pre :
  forall rest acc d,
    normalize_loop fromisoformat (pre ++ rest) acc = Ok d ->
    exists acc', normalize_loop fromisoformat pre acc = Ok acc' /\
                 normalize_loop fromisoformat rest acc' = Ok d.
Proof.
  induction pre as [|td pre IH]; simpl; intros rest acc d H; [eauto|].
  destruct (normalize_task fromisoformat td) as [t|]; [|discriminate]. eauto.
Qed.

Lemma normalize_loop_untouched tasks k :
  forall acc d,
    normalize_loop fromisoformat tasks acc = Ok d ->
    k ∉ map td_id tasks -> dict_get d k = dict_get acc k.
Proof.
  induction tasks as [|td tasks IH]; simpl; intros acc d H Hk.
  - by injection H as <-.
  - destruct (normalize_task fromisoformat td) as [t|]; [|discriminate].
    rewrite (IH _ _ H) by (intros Hin; apply Hk; by right).
    apply dict_get_set_ne. intros E. apply Hk. rewrite E. left.
Qed.

Lemma fresh_ids_elem ids :
  forall seen k, k ∈ fresh_ids seen ids <-> k ∈ ids /\ k ∉ seen.
Proof.
  induction ids as [|k0 ids IH]; simpl; intros seen k.
  - split; [intros H; inversion H|intros [H _]; inversion H].
  - destruct (decide (k0 ∈ seen)) as [Hs|Hs].
    + rewrite IH. split.
      * intros [? ?]. split; [by right|done].
      * intros [Hin Hn]. split; [|done].
        apply elem_of_cons in Hin as [->|?]; done.
    + rewrite elem_of_cons, IH. split.
      * intros [->|[Hin Hn]]; [split; [left|done]|].
        split; [by right|]. intros Hin'. apply Hn, elem_of_app. by left.
      * intros [Hin Hn]. destruct (decide (k = k0)) as [->|Hne]; [by left|right].
        apply elem_of_cons in Hin as [?|Hin]; [done|]. split; [done|].
        intros [?|Hin']%elem_of_app; [done|].
        by apply list_elem_of_singleton in Hin'.
Qed.

Lemma fresh_ids_NoDup ids :
  forall seen, NoDup seen -> NoDup (seen ++ fresh_ids seen ids).
Proof.
  induction ids as [|k0 ids IH]; simpl; intros seen Hnd.
  - by rewrite app_nil_r.
  - destruct (decide (k0 ∈ seen)) as [Hs|Hs]; [by apply IH|].
    change (k0 :: fresh_ids (seen ++ [k0]) ids)
      with ([k0] ++ fresh_ids (seen ++ [k0]) ids).
    rewrite app_assoc. apply IH. apply NoDup_app. split; [done|]. split.
    + intros k Hk Hk'. apply list_elem_of_singleton in Hk'. by subst.
    + apply NoDup_singleton.
Qed.

Lemma fresh_ids_id ids :
  forall seen, NoDup (seen ++ ids) -> fresh_ids seen ids = ids.
Proof.
  induction ids as [|k0 ids IH]; simpl; intros seen Hnd; [done|].
  apply NoDup_app in Hnd as (Hs & Hdis & Hids).
  apply NoDup_cons in Hids as [Hk0 Hids].
  destruct (decide (k0 ∈ seen)) as [Hin|_].
  - destruct (Hdis _ Hin). left.
  - f_equal. apply IH. apply NoDup_app. split; [|split; [|done]].
    + apply NoDup_app. split; [done|]. split; [|apply NoDup_singleton].
      intros k Hk Hk'. apply list_elem_of_singleton in Hk'. subst.
      apply (Hdis _ Hk). left.
    + intros k [Hk|Hk]%elem_of_app Hk'.
      * apply (Hdis _ Hk). by right.
      * apply list_elem_of_singleton in Hk. by subst.
Qed.

(** X1. The dictionary built by [normalize_tasks] has one entry per id of
    the batch, in the order in which the ids first occur, and maps each id to
    the normalized form of the last record that carries it. *)
Theorem normalize_tasks_last_record_wins (tasks : list TaskDict) (d : dict Task) :
  normalize_tasks fromisoformat tasks = Ok d ->
  dict_keys d = first_occurrences (map td_id tasks) /\
  NoDup (dict_keys d) /\
  (forall k, k ∈ dict_keys d <-> k ∈ map td_id tasks) /\
  (NoDup (map td_id tasks) -> dict_keys d = map td_id tasks) /\
  (forall pre td post,
     tasks = pre ++ td :: post -> td_id td ∉ map td_id post ->
     exists t, normalize_task fromisoformat td = Ok t /\
               dict_get d (td_id td) = Some t).
Proof.
  unfold normalize_tasks. intros H.
  pose proof (normalize_loop_keys _ _ _ H) as Hk. simpl in Hk.
  split; [done|]. split; [|split; [|split]].
  - rewrite Hk. by apply (fresh_ids_NoDup _ []), NoDup_nil.
  - intros k. rewrite Hk, fresh_ids_elem. split; [by intros [? _]|].
    intros ?. split; [done|]. intros Hn. inversion Hn.
  - intros Hnd. rewrite Hk. by apply fresh_ids_id.
  - intros pre td post -> Hlast.
    apply normalize_loop_split in H as (acc & _ & H). simpl in H.
    destruct (normalize_task fromisoformat td) as [t|]; [|discriminate].
    exists t. split; [done|].
    rewrite (normalize_loop_untouched _ _ _ _ H Hlast). apply dict_get_set_eq.
Qed.

End NormalizeDuplicates.

Lemma normalize_tasks_last_record_wins_witness :
  normalize_tasks fromisoformat_date shadowed_batch
  = Ok [ ("1", mk_Task "1" "Final" (midnight 2024 1 25) 4 ["2"] 1);
         ("2", mk_Task "2" "Other" (midnight 2024 1 20) 3 [] 2) ] /\
  dict_keys [ ("1", mk_Task "1" "Final" (midnight 2024 1 25) 4 ["2"] 1);
              ("2", mk_Task "2" "Other" (midnight 2024 1 20) 3 [] 2) ]
  = first_occurrences (map td_id shadowed_batch).
Proof.
  assert (H : normalize_tasks fromisoformat_date shadowed_batch
              = Ok [ ("1", mk_Task "1" "Final" (midnight 2024 1 25) 4 ["2"] 1);
                     ("2", mk_Task "2" "Other" (midnight 2024 1 20) 3 [] 2) ])
    by (vm_compute; reflexivity).
  split; [exact H|].
  exact (proj1 (normalize_tasks_last_record_wins fromisoformat_date _ _ H)).
Defined.

(** ** The checks of [validate_task], read backwards *)

Lemma check_dependencies_ok_inv task deps ids :
  check_dependencies task deps ids = Ok tt -> forall d, d ∈ deps -> d ∈ ids.
Proof.
  induction deps as [|d0 deps IH]; simpl; intros H d Hd; [inversion Hd|].
  destruct (decide (d0 ∈ ids)) as [Hin|_]; [|discriminate].
  apply elem_of_cons in Hd as [->|Hd]; [done|by apply IH].
Qed.

Lemma check_dependencies_raise task deps ids e :
  check_dependencies task deps ids = Raise e ->
  exists pre d post,
    deps = pre ++ d :: post /\ (forall d', d' ∈ pre -> d' ∈ ids) /\
    (d ∉ ids) /\
    e = InvalidDependencyError (invalid_dependency_msg task d).
Proof.
  induction deps as [|d0 deps IH]; simpl; intros H; [discriminate|].
  destruct (decide (d0 ∈ ids)) as [Hin|Hout].
  - destruct (IH H) as (pre & d & post & -> & Hpre & Hd & ->).
    exists (d0 :: pre), d, post. split; [done|]. split; [|done].
    intros d' [->|Hd']%elem_of_cons; [done|by apply Hpre].
  - injection H as <-. exists [], d0, deps. split; [done|]. split; [|done].
    intros d' Hd'. inversion Hd'.
Qed.

Lemma hours_check_true task :
  negb (Qle_bool 0 (estimated_hours task)) = true
  <-> (estimated_hours task < 0)%Q.
Proof.
  rewrite negb_true_iff. split.
  - intros H. apply Qnot_le_lt. intros Hle.
    apply Qle_bool_iff in Hle. congruence.
  - intros H. destruct (Qle_bool 0 (estimated_hours task)) eqn:E; [|done].
    apply Qle_bool_iff in E. by destruct (Qlt_not_le _ _ H).
Qed.

Lemma hours_check_false task :
  negb (Qle_bool 0 (estimated_hours task)) = false
  <-> (0 <= estimated_hours task)%Q.
Proof. rewrite negb_false_iff. apply Qle_bool_iff. Qed.

Lemma validate_task_in_range task ids r :
  validate_task task ids = r ->
  (forall msg, r <> Raise (InvalidPriorityError msg)) ->
  priority_in_range task.
Proof.
  intros H Hr. unfold priority_in_range.
  destruct (decide (PRIORITY_MIN <= priority task <= PRIORITY_MAX)) as [|Hn];
    [done|].
  rewrite (validate_task_bad_priority task ids Hn) in H.
  by destruct (Hr (invalid_priority_msg task)).
Qed.

Lemma validate_task_ok_inv task ids :
  validate_task task ids = Ok tt ->
  priority_in_range task /\
  (forall dep_id, dep_id ∈ dependencies task -> dep_id ∈ ids) /\
  (0 <= estimated_hours task)%Q.
Proof.
  intros H.
  assert (Hr : priority_in_range task).
  { apply (validate_task_in_range _ _ _ H). discriminate. }
  split; [done|]. rewrite (validate_task_good_priority _ _ Hr) in H.
  destruct (check_dependencies task (dependencies task) ids)
    as [[]|e] eqn:Hc; simpl in H; [|discriminate].
  split; [by apply (check_dependencies_ok_inv task)|].
  apply hours_check_false. by destruct (negb _).
Qed.

(** X2. [validate_task] returns without raising exactly when the priority
    is between 1 and 5, every dependency id is in [all_task_ids] and the
    estimated hours are not negative. *)
Theorem validate_task_ok_iff (task : Task) (all_task_ids : gset string) :
  validate_task task all_task_ids = Ok tt
  <-> priority_in_range task /\
      (forall dep_id, dep_id ∈ dependencies task -> dep_id ∈ all_task_ids) /\
      (0 <= estimated_hours task)%Q.
Proof.
  split; [apply validate_task_ok_inv|].
  intros (Hr & Hd & Hh). rewrite (validate_task_good_priority _ _ Hr).
  rewrite (check_dependencies_ok _ _ _ Hd). simpl.
  apply hours_check_false in Hh. by rewrite Hh.
Qed.

(** X3. [validate_task] raises [InvalidDependencyError] exactly when the
    priority is in range and some dependency id is not in [all_task_ids];
    the message is built from the first such id in list order, and contains
    both the task's id and that dependency id. *)
Theorem validate_task_dependency_error (task : Task)
    (all_task_ids : gset string) (msg : string) :
  (validate_task task all_task_ids = Raise (InvalidDependencyError msg)
   <-> priority_in_range task /\
       exists pre dep_id post,
         dependencies task = pre ++ dep_id :: post /\
         (forall d, d ∈ pre -> d ∈ all_task_ids) /\
         (dep_id ∉ all_task_ids) /\
         msg = invalid_dependency_msg task dep_id) /\
  (forall dep_id,
     str_in (id task) (invalid_dependency_msg task dep_id) = true /\
     str_in dep_id (invalid_dependency_msg task dep_id) = true).
Proof.
  split; [split|].
  - intros H.
    assert (Hr : priority_in_range task).
    { apply (validate_task_in_range _ _ _ H). discriminate. }
    split; [done|]. rewrite (validate_task_good_priority _ _ Hr) in H.
    destruct (check_dependencies task (dependencies task) all_task_ids)
      as [[]|e] eqn:Hc; simpl in H.
    + destruct (negb _); discriminate.
    + apply check_dependencies_raise in Hc
        as (pre & d & post & Hdeps & Hpre & Hd & ->).
      injection H as <-. by exists pre, d, post.
  - intros (Hr & pre & d & post & Hdeps & Hpre & Hd & ->).
    rewrite (validate_task_good_priority _ _ Hr), Hdeps.
    by rewrite (check_dependencies_missing _ _ _ _ _ Hpre Hd).
  - intros dep_id. unfold invalid_dependency_msg. split.
    + do 2 apply str_in_skip. apply str_in_here.
    + do 6 apply str_in_skip. apply str_in_here.
Qed.

(** X4. [validate_task] raises [ValueError] exactly when the priority is in
    range, every dependency id is in [all_task_ids] and the estimated hours
    are negative; the message contains the task's id. *)
Theorem validate_task_negative_hours (task : Task)
    (all_task_ids : gset string) (msg : string) :
  (validate_task task all_task_ids = Raise (ValueError msg)
   <-> priority_in_range task /\
       (forall dep_id, dep_id ∈ dependencies task -> dep_id ∈ all_task_ids) /\
       (estimated_hours task < 0)%Q /\
       msg = negative_hours_msg task) /\
  str_in (id task) (negative_hours_msg task) = true.
Proof.
  split; [split|].
  - intros H.
    assert (Hr : priority_in_range task).
    { apply (validate_task_in_range _ _ _ H). discriminate. }
    split; [done|]. rewrite (validate_task_good_priority _ _ Hr) in H.
    destruct (check_dependencies task (dependencies task) all_task_ids)
      as [[]|e] eqn:Hc; simpl in H.
    + split; [by apply (check_dependencies_ok_inv task)|].
      destruct (negb _) eqn:Hh; [|discriminate].
      apply hours_check_true in Hh. injection H as <-. done.
    + apply check_dependencies_raise in Hc as (? & ? & ? & _ & _ & _ & ->).
      discriminate.
  - intros (Hr & Hd & Hh & ->). rewrite (validate_task_good_priority _ _ Hr).
    rewrite (check_dependencies_ok _ _ _ Hd). simpl.
    apply hours_check_true in Hh. by rewrite Hh.
  - unfold negative_hours_msg. do 2 apply str_in_skip. apply str_in_here.
Qed.

(** ** The entry point, read backwards *)

Section EntryPoint.
Variable fromisoformat : string -> option datetime.

Lemma validate_all_inv ts ids :
  validate_all ts ids = Ok tt ->
  Forall (fun t => validate_task t ids = Ok tt) ts.
Proof.
  induction ts as [|t ts IH]; simpl; intros H; [constructor|].
  destruct (validate_task t ids) as [[]|e] eqn:E; simpl in H; [|discriminate].
  constructor; [done|by apply IH].
Qed.

Lemma validates_valid_task_dict ids td t :
  normalize_task fromisoformat td = Ok t ->
  validate_task t ids = Ok tt ->
  valid_task_dict fromisoformat ids td.
Proof.
  intros Hn Hv.
  apply normalize_task_fields in Hn as (Hp & _ & _ & Hpr & Hd & Hh).
  apply validate_task_ok_inv in Hv as (Hr & Hdeps & Hhours).
  unfold priority_in_range in Hr. rewrite Hpr in Hr. rewrite Hd in Hdeps.
  rewrite Hh in Hhours. split; [eauto|done].
Qed.

Lemma acyclic_batch_nil : acyclic_batch [].
Proof.
  intros x Hx.
  inversion Hx as [? ? Hb|? ? ? Hb _]; destruct Hb as (td & Hin & _);
    inversion Hin.
Qed.

Lemma normalize_tasks_ok_of_success tasks out :
  tasks <> [] ->
  prioritize_tasks fromisoformat tasks = Some (Ok out) ->
  exists d, normalize_tasks fromisoformat tasks = Ok d.
Proof.
  intros Hne H. destruct tasks as [|td tasks]; [done|].
  unfold prioritize_tasks in H.
  destruct (normalize_tasks _ _) as [d|]; [eauto|discriminate].
Qed.

(** X5. For a batch with unique ids, [prioritize_tasks] returns (rather than
    raises) exactly when every deadline parses, every priority is in range,
    every dependency id is an id of the batch, no estimate is negative and
    the dependency graph has no cycle. *)
Theorem prioritize_tasks_succeeds_iff (tasks : list TaskDict) :
  NoDup (map td_id tasks) ->
  (prioritize_tasks fromisoformat tasks = Some (Ok tasks)
   <-> valid_batch fromisoformat tasks /\ acyclic_batch tasks).
Proof.
  intros Hnd. split; [|intros [Hv Ha]; by apply prioritize_tasks_valid].
  intros H. destruct (decide (tasks = [])) as [->|Hne].
  { split; [split; [done|constructor]|apply acyclic_batch_nil]. }
  destruct (normalize_tasks_ok_of_success _ _ Hne H) as [d Hd].
  destruct (normalize_loop_inv fromisoformat _ _ _ Hd) as [ts Hts].
  rewrite (prioritize_tasks_normalized fromisoformat tasks ts Hne Hnd Hts) in H.
  destruct (validate_all ts (batch_ids tasks)) as [[]|] eqn:V; [|discriminate].
  destruct (detect_circular_dependencies (task_entries ts)) as [[[]|]|] eqn:D;
    try discriminate.
  split; [split; [done|]|by eapply acyclic_batch_by_detect].
  apply validate_all_inv in V. clear -Hts V.
  revert V. generalize (batch_ids tasks). intros ids V.
  induction Hts as [|td t tasks ts Ht _ IH]; [constructor|].
  apply Forall_cons in V as [V1 V2]. constructor; [|by apply IH].
  by eapply validates_valid_task_dict.
Qed.

Lemma leads_entries_batch tasks ts x :
  Forall2 (fun td t => normalize_task fromisoformat td = Ok t) tasks ts ->
  NoDup (map td_id tasks) ->
  leads_to_cycle (task_entries ts) x <-> batch_leads_to_cycle tasks x.
Proof.
  intros Hts Hnd. split; intros (y & Hxy & Hy); exists y; split.
  - apply (rtc_congruence (fun k => k) (batch_edge tasks)) in Hxy; [done|].
    intros a b. by apply (edge_entries_batch fromisoformat tasks ts).
  - apply (tc_congruence (fun k => k) (batch_edge tasks)) in Hy; [done|].
    intros a b. by apply (edge_entries_batch fromisoformat tasks ts).
  - apply (rtc_congruence (fun k => k) (edge (task_entries ts))) in Hxy; [done|].
    intros a b. by apply (batch_edge_entries fromisoformat tasks ts).
  - apply (tc_congruence (fun k => k) (edge (task_entries ts))) in Hy; [done|].
    intros a b. by apply (batch_edge_entries fromisoformat tasks ts).
Qed.

(** X6. On a valid batch whose dependency graph has a cycle,
    [prioritize_tasks] raises [CircularDependencyError]; the id in the
    message is the first id of the batch, in input order, from which a
    cycle can be reached along dependencies. *)
Theorem prioritize_tasks_cycle_error (tasks : list TaskDict) :
  valid_batch fromisoformat tasks ->
  (exists x, tc (batch_edge tasks) x x) ->
  exists pre x post,
    map td_id tasks = pre ++ x :: post /\
    prioritize_tasks fromisoformat tasks
    = Some (Raise (CircularDependencyError (circular_dependency_msg x))) /\
    batch_leads_to_cycle tasks x /\
    (forall k, k ∈ pre -> ~ batch_leads_to_cycle tasks k).
Proof.
  intros [Hnd Hv] [c Hc].
  assert (Hne : tasks <> []).
  { intros ->. by apply (acyclic_batch_nil c). }
  destruct (normalizes_exists fromisoformat tasks) as [ts Hts].
  { eapply Forall_impl; [exact Hv|]. by intros td (Hp & _). }
  rewrite (prioritize_tasks_normalized fromisoformat tasks ts Hne Hnd Hts).
  rewrite validate_all_ok.
  2:{ clear Hne Hnd Hc. revert Hv. generalize (batch_ids tasks). intros ids Hv.
      induction Hts as [|td t tasks ts Ht _ IH]; [done|].
      apply Forall_cons in Hv as [Hv1 Hv2]. constructor; [|by apply IH].
      by eapply valid_task_dict_validates. }
  destruct (detect_total (task_entries ts)) as [[[]|e] D]; rewrite D.
  - destruct (detect_ok _ D c). unfold on_cycle.
    apply (tc_congruence (fun k => k) (edge (task_entries ts))) in Hc; [done|].
    intros a b. by apply (batch_edge_entries fromisoformat tasks ts).
  - apply detect_raise in D as (pre & x & post & Hk & -> & Hx & Hpre).
    rewrite dict_keys_entries, (normalizes_ids fromisoformat _ _ Hts) in Hk.
    exists pre, x, post. split; [done|]. split; [done|]. split.
    + by apply (leads_entries_batch tasks ts).
    + intros k Hin Hl. apply (Hpre k Hin).
      by apply (leads_entries_batch tasks ts).
Qed.

End EntryPoint.

Lemma cyclic_batch_valid : valid_batch fromisoformat_date cyclic_batch.
Proof.
  split; [apply (bool_decide_unpack _); by vm_compute|].
  repeat constructor; try (by vm_compute; eauto);
    try (by vm_compute; intros; discriminate);
    intros dep_id Hd; apply (bool_decide_unpack _);
    repeat (apply elem_of_cons in Hd as [->|Hd]; [by vm_compute|]);
    inversion Hd.
Qed.

Lemma prioritize_tasks_succeeds_iff_witness :
  NoDup (map td_id simple_batch) /\
  (prioritize_tasks fromisoformat_date simple_batch = Some (Ok simple_batch)
   <-> valid_batch fromisoformat_date simple_batch /\ acyclic_batch simple_batch).
Proof.
  assert (H : NoDup (map td_id simple_batch))
    by (apply (bool_decide_unpack _); by vm_compute).
  split; [exact H|].
  exact (prioritize_tasks_succeeds_iff fromisoformat_date simple_batch H).
Defined.

Lemma prioritize_tasks_cycle_error_witness :
  valid_batch fromisoformat_date cyclic_batch /\
  (exists x, tc (batch_edge cyclic_batch) x x) /\
  exists pre x post,
    map td_id cyclic_batch = pre ++ x :: post /\
    prioritize_tasks fromisoformat_date cyclic_batch
    = Some (Raise (CircularDependencyError (circular_dependency_msg x))) /\
    batch_leads_to_cycle cyclic_batch x /\
    (forall k, k ∈ pre -> ~ batch_leads_to_cycle cyclic_batch k).
Proof.
  assert (Hc : exists x, tc (batch_edge cyclic_batch) x x).
  { exists "2". apply (tc_l _ _ "3").
    - exists (mk_TaskDict "2" "Ping" (DeadlineStr "2024-01-20") 3 ["3"] 2).
      split; [|split; [done|left]]. right. left.
    - apply tc_once.
      exists (mk_TaskDict "3" "Pong" (DeadlineStr "2024-01-25") 3 ["2"] 2).
      split; [|split; [done|left]]. right. right. left. }
  split; [exact cyclic_batch_valid|]. split; [exact Hc|].
  exact (prioritize_tasks_cycle_error fromisoformat_date cyclic_batch
           cyclic_batch_valid Hc).
Defined.

(** ** [has_cycle], seen from its callers *)

Section TraversalFacts.
Variable tasks : dict Task.

Lemma has_cycle_deps_grows rec deps :
  (forall d st b st', rec d st = Some (b, st') ->
     visited st ⊆ visited st' /\ recursion_stack st ⊆ recursion_stack st') ->
  forall st b st',
    has_cycle_deps rec deps st = Some (b, st') ->
    visited st ⊆ visited st' /\ recursion_stack st ⊆ recursion_stack st'.
Proof.
  intros Hrec. induction deps as [|d deps IH]; simpl; intros st b st' H.
  - by injection H as <- <-.
  - destruct (rec d st) as [[[] st1]|] eqn:E; [|..|discriminate].
    + injection H as <- <-. by apply (Hrec d st true).
    + apply Hrec in E as [E1 E2]. apply IH in H as [H1 H2].
      split; set_solver.
Qed.

Lemma has_cycle_grows fuel :
  forall task_id st b st',
    has_cycle fuel tasks task_id st = Some (b, st') ->
    visited st ⊆ visited st' /\ recursion_stack st ⊆ recursion_stack st'.
Proof.
  induction fuel as [|fuel IH]; simpl; intros task_id st b st' H; [discriminate|].
  destruct (decide (task_id ∈ recursion_stack st)) as [|Hs];
    [by injection H as <- <-|].
  destruct (decide (task_id ∈ visited st)) as [|Hv]; [by injection H as <- <-|].
  destruct (has_cycle_deps _ _ _) as [[[] st2]|] eqn:E; [|..|discriminate];
    apply (has_cycle_deps_grows _ _ IH) in E as [E1 E2]; simpl in *;
    injection H as <- <-; simpl; split; set_solver.
Qed.

(** X7. A call of [has_cycle] never removes an id from [visited] or from
    [recursion_stack]; when it answers [False] the recursion stack is
    exactly as it was before the call and the id it was called on is marked
    visited. *)
Theorem has_cycle_frame (fuel : nat) (task_id : string) (st : dfs_state)
    (b : bool) (st' : dfs_state) :
  has_cycle fuel tasks task_id st = Some (b, st') ->
  visited st ⊆ visited st' /\
  recursion_stack st ⊆ recursion_stack st' /\
  (b = false ->
   recursion_stack st' = recursion_stack st /\ task_id ∈ visited st').
Proof.
  intros H. destruct (has_cycle_grows _ _ _ _ _ H) as [H1 H2].
  split; [done|]. split; [done|]. intros ->.
  by apply has_cycle_false_frame in H as (? & _ & ? & _).
Qed.

(** X8. Called with an empty recursion stack, in a state where the ids
    already finished have all their dependencies finished and lie on no
    cycle (as is the case for every call made by the loop over the keys, and
    for the first call with both sets empty), [has_cycle] answers [True]
    exactly when a cycle can be reached from the id along dependencies. *)
Theorem has_cycle_decides (fuel : nat) (task_id : string) (st : dfs_state)
    (b : bool) (st' : dfs_state) :
  dfs_inv tasks st -> recursion_stack st = ∅ ->
  has_cycle fuel tasks task_id st = Some (b, st') ->
  (b = true <-> leads_to_cycle tasks task_id).
Proof.
  intros Hinv Hst H. destruct b.
  - split; [intros _|done].
    apply (has_cycle_true tasks fuel _ _ _ H). intros s Hs.
    rewrite Hst in Hs. by apply not_elem_of_empty in Hs.
  - split; [done|]. intros Hl. exfalso.
    pose proof (has_cycle_false_inv tasks fuel _ _ _ H Hinv) as Hinv'.
    apply has_cycle_false_frame in H as (H1 & _ & H3 & _).
    apply (finished_no_cycle tasks st' task_id Hinv'); [|done].
    unfold finished. rewrite H1, Hst. set_solver.
Qed.

Lemma has_cycle_deps_more_fuel (rec rec' : string -> dfs_state -> option (bool * dfs_state)) deps :
  (forall d st r, rec d st = Some r -> rec' d st = Some r) ->
  forall st r,
    has_cycle_deps rec deps st = Some r -> has_cycle_deps rec' deps st = Some r.
Proof.
  intros Hrec. induction deps as [|d deps IH]; simpl; intros st r H; [done|].
  destruct (rec d st) as [[[] st1]|] eqn:E; [|..|discriminate];
    rewrite (Hrec _ _ _ E); [done|by apply IH].
Qed.

Lemma has_cycle_more_fuel fuel :
  forall fuel' task_id st r,
    (fuel <= fuel')%nat ->
    has_cycle fuel tasks task_id st = Some r ->
    has_cycle fuel' tasks task_id st = Some r.
Proof.
  induction fuel as [|fuel IH]; intros fuel' task_id st r Hle H; [discriminate|].
  destruct fuel' as [|fuel']; [lia|]. simpl in *.
  destruct (decide (task_id ∈ recursion_stack st)); [done|].
  destruct (decide (task_id ∈ visited st)); [done|].
  destruct (has_cycle_deps (has_cycle fuel tasks) _ _) as [r1|] eqn:E;
    [|discriminate].
  rewrite (has_cycle_deps_more_fuel _ (has_cycle fuel' tasks) _
             (fun d s r0 => IH fuel' d s r0 ltac:(lia)) _ _ E).
  done.
Qed.

Lemma task_deps_not_node task_id :
  task_id ∉ node_set tasks -> task_deps tasks task_id = [].
Proof.
  intros Hn. unfold task_deps.
  destruct (dict_get tasks task_id) as [t|] eqn:E; [|done].
  destruct Hn. apply dict_get_Some_key in E.
  apply elem_of_list_to_set, elem_of_app. by left.
Qed.

(** X9. The calls of [has_cycle] never nest deeper than one more than the
    number of ids (keys and dependency ids) not yet visited: with that depth
    allowed the call returns, and allowing more depth gives the same answer
    and the same sets. *)
Theorem has_cycle_depth_bound (fuel fuel' : nat) (task_id : string)
    (st : dfs_state) :
  (size (node_set tasks ∖ visited st) < fuel)%nat -> (fuel <= fuel')%nat ->
  exists r, has_cycle fuel tasks task_id st = Some r /\
            has_cycle fuel' tasks task_id st = Some r.
Proof.
  intros Hn Hle.
  assert (Hs : is_Some (has_cycle fuel tasks task_id st)).
  { destruct (decide (task_id ∈ node_set tasks)) as [Hin|Hout];
      [by apply has_cycle_total_fuel|].
    destruct fuel as [|fuel]; [lia|]. simpl.
    destruct (decide (task_id ∈ recursion_stack st)); [eauto|].
    destruct (decide (task_id ∈ visited st)); [eauto|].
    rewrite (task_deps_not_node _ Hout). simpl. eauto. }
  destruct Hs as [r Hr]. exists r. split; [done|].
  by apply (has_cycle_more_fuel fuel).
Qed.

End TraversalFacts.

Lemma has_cycle_frame_witness :
  exists b st',
    has_cycle 3 tail_cycle "A" (mk_dfs_state ∅ ∅) = Some (b, st') /\
    visited (mk_dfs_state ∅ ∅) ⊆ visited st' /\
    recursion_stack (mk_dfs_state ∅ ∅) ⊆ recursion_stack st' /\
    (b = false ->
     recursion_stack st' = recursion_stack (mk_dfs_state ∅ ∅) /\
     "A" ∈ visited st').
Proof.
  destruct (has_cycle 3 tail_cycle "A" (mk_dfs_state ∅ ∅)) as [[b st']|] eqn:E;
    [|vm_compute in E; discriminate E].
  exists b, st'. split; [reflexivity|].
  exact (has_cycle_frame tail_cycle 3 "A" (mk_dfs_state ∅ ∅) b st' E).
Defined.

Lemma has_cycle_decides_witness :
  dfs_inv tail_cycle (mk_dfs_state ∅ ∅) /\
  recursion_stack (mk_dfs_state ∅ ∅) = ∅ /\
  exists b st',
    has_cycle 3 tail_cycle "A" (mk_dfs_state ∅ ∅) = Some (b, st') /\
    (b = true <-> leads_to_cycle tail_cycle "A").
Proof.
  split; [apply dfs_inv_init|]. split; [reflexivity|].
  destruct (has_cycle 3 tail_cycle "A" (mk_dfs_state ∅ ∅)) as [[b st']|] eqn:E;
    [|vm_compute in E; discriminate E].
  exists b, st'. split; [reflexivity|].
  exact (has_cycle_decides tail_cycle 3 "A" (mk_dfs_state ∅ ∅) b st'
           (dfs_inv_init tail_cycle) eq_refl E).
Defined.

Lemma has_cycle_depth_bound_witness :
  (size (node_set tail_cycle ∖ visited (mk_dfs_state ∅ ∅)) < 3)%nat /\
  (3 <= 5)%nat /\
  exists r, has_cycle 3 tail_cycle "A" (mk_dfs_state ∅ ∅) = Some r /\
            has_cycle 5 tail_cycle "A" (mk_dfs_state ∅ ∅) = Some r.
Proof.
  assert (H1 : (size (node_set tail_cycle ∖ visited (mk_dfs_state ∅ ∅)) < 3)%nat)
    by (vm_compute; lia).
  assert (H2 : (3 <= 5)%nat) by lia.
  split; [exact H1|]. split; [exact H2|].
  exact (has_cycle_depth_bound tail_cycle 3 5 "A" (mk_dfs_state ∅ ∅) H1 H2).
Defined.

(** ** [parse_deadline] and the suffix [Z] *)

Lemma str_in_Z_cons (c : ascii) (s : string) :
  str_in "Z" (String c s) = Ascii.eqb c "Z" || str_in "Z" s.
Proof.
  cbn [str_in String.prefix].
  destruct (ascii_dec "Z" c) as [<-|Hne].
  - by destruct s.
  - destruct (Ascii.eqb c "Z") eqn:E; [|done].
    apply Ascii.eqb_eq in E. by destruct Hne.
Qed.

Lemma replace_Z_without_Z (s : string) :
  str_in "Z" s = false -> replace_Z s = s.
Proof.
  induction s as [|c s IH]; [done|]. rewrite str_in_Z_cons.
  intros [Hc Hs]%orb_false_iff. simpl. rewrite Hc. by rewrite IH.
Qed.

Lemma replace_Z_has_no_Z (s : string) : str_in "Z" (replace_Z s) = false.
Proof.
  induction s as [|c s IH]; [done|]. simpl.
  destruct (Ascii.eqb c "Z") eqn:E.
  - change ("+00:00" +:+ replace_Z s)
      with (String "+" (String "0" (String "0" (String ":"
             (String "0" (String "0" (replace_Z s))))))).
    by rewrite !str_in_Z_cons, IH.
  - by rewrite str_in_Z_cons, E, IH.
Qed.

Lemma replace_Z_app (s t : string) :
  replace_Z (s +:+ t) = replace_Z s +:+ replace_Z t.
Proof.
  induction s as [|c s IH]; [done|].
  change (String c s +:+ t) with (String c (s +:+ t)). simpl.
  rewrite IH. by destruct (Ascii.eqb c "Z").
Qed.

Lemma prefix_app_l (sub s t : string) :
  String.prefix sub s = true -> String.prefix sub (s +:+ t) = true.
Proof.
  revert s. induction sub as [|a sub IH]; intros s.
  - intros _. by destruct (s +:+ t).
  - destruct s as [|b s]; [by intros H; vm_compute in H|].
    change (String b s +:+ t) with (String b (s +:+ t)). cbn [String.prefix].
    destruct (ascii_dec a b); [apply IH|done].
Qed.

Lemma str_in_app_l (sub s t : string) :
  str_in sub s = true -> str_in sub (s +:+ t) = true.
Proof.
  induction s as [|c s IH].
  - cbn [str_in]. rewrite orb_false_r. intros H.
    destruct sub; [|done]. by destruct t.
  - change (String c s +:+ t) with (String c (s +:+ t)). cbn [str_in].
    intros [H|H]%orb_true_iff.
    + pose proof (prefix_app_l _ (String c s) t H) as Hp.
      change (String c s +:+ t) with (String c (s +:+ t)) in Hp.
      by rewrite Hp.
    + rewrite (IH H). apply orb_true_r.
Qed.

(** X10. In a deadline text that contains [T], every [Z] is read as the
    offset [+00:00] before the text reaches [datetime.fromisoformat], so the
    parser is never handed a [Z]; in particular a text ending in [Z] is
    parsed as the same text ending in [+00:00]. When parsing fails the error
    message quotes the text as it was given, with its [Z]. A text without
    [T] is handed over unchanged. *)
Theorem parse_deadline_utc_suffix (fromisoformat : string -> option datetime)
    (s : string) :
  (str_in "T" s = true ->
   str_in "Z" (replace_Z s) = false /\
   parse_deadline fromisoformat (DeadlineStr s)
   = match fromisoformat (replace_Z s) with
     | Some d => Ok d
     | None => Raise (ValueError ("Invalid date format: " +:+ s))
     end) /\
  (str_in "T" s = true -> str_in "Z" s = false ->
   parse_deadline fromisoformat (DeadlineStr (s +:+ "Z"))
   = match fromisoformat (s +:+ "+00:00") with
     | Some d => Ok d
     | None => Raise (ValueError ("Invalid date format: " +:+ s +:+ "Z"))
     end) /\
  (str_in "T" s = false ->
   parse_deadline fromisoformat (DeadlineStr s)
   = match fromisoformat s with
     | Some d => Ok d
     | None => Raise (ValueError ("Invalid date format: " +:+ s))
     end).
Proof.
  split; [|split].
  - intros HT. split; [apply replace_Z_has_no_Z|].
    unfold parse_deadline. by rewrite HT.
  - intros HT HZ. unfold parse_deadline.
    rewrite (str_in_app_l _ _ _ HT), replace_Z_app, (replace_Z_without_Z _ HZ).
    done.
  - intros HT. unfold parse_deadline. by rewrite HT.
Qed.

(** ** Records shadowed by a later record with the same id *)

Section Shadowing.
Variable fromisoformat : string -> option datetime.






End Shadowing.


(** ** Where an error of the entry point comes from *)

Section ErrorSources.
Variable fromisoformat : string -> option datetime.

Lemma dict_set_values {V : Type} (d : dict V) k v v' :
  v' ∈ dict_values (dict_set d k v) -> v' = v \/ v' ∈ dict_values d.
Proof.
  induction d as [|[k0 v0] d IH]; simpl.
  - intros H. apply list_elem_of_singleton in H. by left.
  - destruct (String.eqb k0 k); simpl; intros [->|H]%elem_of_cons.
    + by left.
    + right. by right.
    + right. left.
    + destruct (IH H) as [?|?]; [by left|right; by right].
Qed.

Lemma normalize_loop_values tasks :
  forall acc d,
    normalize_loop fromisoformat tasks acc = Ok d ->
    forall t, t ∈ dict_values d ->
      t ∈ dict_values acc \/
      exists td, td ∈ tasks /\ normalize_task fromisoformat td = Ok t.
Proof.
  induction tasks as [|td tasks IH]; simpl; intros acc d H t Ht.
  - injection H as <-. by left.
  - destruct (normalize_task fromisoformat td) as [t0|] eqn:E; [|discriminate].
    destruct (IH _ _ H t Ht) as [Hin|(td' & Hin & Hn)].
    + apply dict_set_values in Hin as [->|Hin]; [|by left].
      right. exists td. split; [left|done].
    + right. exists td'. split; [by right|done].
Qed.

Lemma normalize_loop_raise_inv tasks :
  forall acc e,
    normalize_loop fromisoformat tasks acc = Raise e ->
    exists td, td ∈ tasks /\ normalize_task fromisoformat td = Raise e.
Proof.
  induction tasks as [|td tasks IH]; simpl; intros acc e H; [discriminate|].
  destruct (normalize_task fromisoformat td) as [t0|e0] eqn:E.
  - destruct (IH _ _ H) as (td' & Hin & Hn). exists td'. split; [by right|done].
  - injection H as <-. exists td. split; [left|done].
Qed.

Lemma normalize_task_raise_inv td e :
  normalize_task fromisoformat td = Raise e ->
  exists s, td_deadline td = DeadlineStr s /\
            e = ValueError ("Invalid date format: " +:+ s).
Proof.
  unfold normalize_task, parse_deadline.
  destruct (td_deadline td) as [d|s]; [discriminate|].
  destruct (if str_in "T" s then _ else _); [discriminate|].
  intros [= <-]. by exists s.
Qed.

Lemma validate_all_raise_inv ts ids e :
  validate_all ts ids = Raise e ->
  exists t, t ∈ ts /\ validate_task t ids = Raise e.
Proof.
  induction ts as [|t ts IH]; simpl; intros H; [discriminate|].
  destruct (validate_task t ids) as [[]|e0] eqn:E; simpl in H.
  - destruct (IH H) as (t' & Hin & Hv). exists t'. split; [by right|done].
  - injection H as <-. exists t. split; [left|done].
Qed.

(** X12. Every error [prioritize_tasks] raises can be traced to a record of
    the batch: it is the [ValueError] for a deadline text of some record
    that did not parse, or the error [validate_task] raises for the
    normalized form of some record (checked against the ids of the batch),
    or a [CircularDependencyError] naming an id of the batch. *)
Theorem prioritize_tasks_error_source (tasks : list TaskDict) (e : exn) :
  prioritize_tasks fromisoformat tasks = Some (Raise e) ->
  (exists td s,
     td ∈ tasks /\ td_deadline td = DeadlineStr s /\
     parse_deadline fromisoformat (td_deadline td) = Raise e /\
     e = ValueError ("Invalid date format: " +:+ s)) \/
  (exists td t,
     td ∈ tasks /\ normalize_task fromisoformat td = Ok t /\
     validate_task t (batch_ids tasks) = Raise e) \/
  (exists k,
     k ∈ map td_id tasks /\
     e = CircularDependencyError (circular_dependency_msg k)).
Proof.
  intros H. destruct (decide (tasks = [])) as [->|Hne]; [discriminate|].
  assert (Hbody : prioritize_tasks fromisoformat tasks =
    match normalize_tasks fromisoformat tasks with
    | Raise e => Some (Raise e)
    | Ok d =>
        match validate_all (dict_values d) (batch_ids tasks) with
        | Raise e => Some (Raise e)
        | Ok _ =>
            match detect_circular_dependencies d with
            | None => None
            | Some (Raise e) => Some (Raise e)
            | Some (Ok _) => Some (Ok tasks)
            end
        end
    end) by (by destruct tasks).
  rewrite Hbody in H. clear Hbody.
  destruct (normalize_tasks fromisoformat tasks) as [d|e0] eqn:N.
  - destruct (validate_all _ _) as [u|e0] eqn:V.
    + right. right.
      destruct (detect_circular_dependencies d) as [[[]|e0]|] eqn:D;
        try discriminate.
      injection H as ->.
      apply detect_raise in D as (pre & x & post & Hk & -> & _).
      exists x. split; [|done].
      pose proof (normalize_loop_keys fromisoformat _ _ _ N) as Hkeys.
      simpl in Hkeys.
      assert (Hx : x ∈ dict_keys d).
      { rewrite Hk. apply elem_of_app. right. left. }
      rewrite Hkeys in Hx. by apply fresh_ids_elem in Hx as [? _].
    + right. left. injection H as ->.
      apply validate_all_raise_inv in V as (t & Hin & Hv).
      destruct (normalize_loop_values _ _ _ N t Hin) as [Hnil|(td & Htd & Hn)];
        [inversion Hnil|].
      by exists td, t.
  - left. injection H as ->.
    apply normalize_loop_raise_inv in N as (td & Hin & Hn).
    destruct (normalize_task_raise_inv _ _ Hn) as (s & Hs & ->).
    exists td, s. split; [done|]. split; [done|]. split; [|done].
    unfold normalize_task in Hn.
    destruct (parse_deadline fromisoformat (td_deadline td)); [discriminate|].
    by injection Hn as ->.
Qed.

End ErrorSources.

Lemma prioritize_tasks_error_source_witness :
  prioritize_tasks fromisoformat_date bad_deadline_batch
  = Some (Raise (ValueError "Invalid date format: not-a-date")) /\
  ((exists td s,
      td ∈ bad_deadline_batch /\ td_deadline td = DeadlineStr s /\
      parse_deadline fromisoformat_date (td_deadline td)
      = Raise (ValueError "Invalid date format: not-a-date") /\
      ValueError "Invalid date format: not-a-date"
      = ValueError ("Invalid date format: " +:+ s)) \/
   (exists td t,
      td ∈ bad_deadline_batch /\ normalize_task fromisoformat_date td = Ok t /\
      validate_task t (batch_ids bad_deadline_batch)
      = Raise (ValueError "Invalid date format: not-a-date")) \/
   (exists k,
      k ∈ map td_id bad_deadline_batch /\
      ValueError "Invalid date format: not-a-date"
      = CircularDependencyError (circular_dependency_msg k))).
Proof.
  assert (H : prioritize_tasks fromisoformat_date bad_deadline_batch
              = Some (Raise (ValueError "Invalid date format: not-a-date")))
    by (vm_compute; reflexivity).
  split; [exact H|].
  exact (prioritize_tasks_error_source fromisoformat_date _ _ H).
Defined.

Lemma parse_deadline_utc_suffix_witness :
  str_in "T" "2024-01-15T10:30:00" = true /\
  str_in "Z" "2024-01-15T10:30:00" = false /\
  parse_deadline fromisoformat_date (DeadlineStr "2024-01-15T10:30:00Z")
  = match fromisoformat_date "2024-01-15T10:30:00+00:00" with
    | Some d => Ok d
    | None => Raise (ValueError "Invalid date format: 2024-01-15T10:30:00Z")
    end.
Proof.
  assert (HT : str_in "T" "2024-01-15T10:30:00" = true) by reflexivity.
  assert (HZ : str_in "Z" "2024-01-15T10:30:00" = false) by reflexivity.
  split; [exact HT|]. split; [exact HZ|].
  exact (proj1 (proj2 (parse_deadline_utc_suffix fromisoformat_date
                         "2024-01-15T10:30:00")) HT HZ).
Defined.
